(** * nonlinear_solvers.solvers: Newton-Raphson, bisection and their composite

    A shallow embedding of [src/nonlinear_solvers/solvers.py].

    Numbers are exact rationals ([Q], the behaviour of the code on
    [fractions.Fraction] arguments); what is proved on them is the control
    flow of the code and the facts that exact arithmetic gives.  The
    rounding, the infinities and the NaN of binary floats are in the second
    model, [Float64], which has [newton_raphson] on IEEE 754 binary64
    values.  The callbacks [f] and [df] are total pure functions: they
    return on every argument and raise nothing of their own.  Every
    evaluation of a callback and every entry into a loop body is recorded in
    a trace, so that statements about how often the callbacks are evaluated
    and how many iterations are run can be made about the code itself.
    Equality on [Q] is Leibniz equality of the representation wherever a
    value is only passed along, and [Qeq] / [Qle] where it is compared. *)

From Stdlib Require Import QArith Qabs ZArith List Lia Lqa Bool.
From Stdlib Require PrimFloat FloatOps FloatAxioms SpecFloat.
Import ListNotations.

Local Open Scope Q_scope.

(** ** Exceptions, outcomes and the trace monad *)

(** The exceptions the module can raise.  [ValueError] is what [bisection]
    raises for an invalid bracket; [ZeroDivisionError] comes from [/]. *)
Inductive exn : Type :=
| ConvergenceError
| ValueError
| ZeroDivisionError.

(** What a call can do: return, raise, or (in the model only) exhaust the
    fuel given to a [while] loop. *)
Inductive outcome (A : Type) : Type :=
| Return (a : A)
| Raise (e : exn)
| OutOfFuel.
Arguments Return {A} a.
Arguments Raise {A} e.
Arguments OutOfFuel {A}.

(** Observable events: a call of [f], a call of [df], an entry into the body
    of a [while] loop. *)
Inductive event : Type :=
| CallF (x : Q)
| CallDf (x : Q)
| Iter.

Definition trace := list event.

(** A computation reads the trace so far and gives an outcome and the
    extended trace. *)
Definition M (A : Type) : Type := trace -> outcome A * trace.

Definition ret {A} (a : A) : M A := fun t => (Return a, t).

Definition raise {A} (e : exn) : M A := fun t => (Raise e, t).

Definition bind {A B} (c : M A) (k : A -> M B) : M B :=
  fun t =>
    match c t with
    | (Return a, t') => k a t'
    | (Raise e, t') => (Raise e, t')
    | (OutOfFuel, t') => (OutOfFuel, t')
    end.

Notation "x <- c ;; k" := (bind c (fun x => k))
  (at level 61, c at next level, right associativity).

Definition emit (e : event) : M unit := fun t => (Return tt, t ++ [e]).

(** The outcome of a call with its returned value mapped through [g]. *)
Definition outcome_map {A B} (g : A -> B) (r : outcome A * trace) : outcome B * trace :=
  match r with
  | (Return a, t) => (Return (g a), t)
  | (Raise e, t) => (Raise e, t)
  | (OutOfFuel, t) => (OutOfFuel, t)
  end.

(** [try: c except ConvergenceError: h] *)
Definition try_except_ConvergenceError {A} (c : M A) (h : M A) : M A :=
  fun t =>
    match c t with
    | (Raise ConvergenceError, t') => h t'
    | r => r
    end.

(** [while cond: body], run for at most [fuel] evaluations of [cond]. *)
Fixpoint while {S : Type} (cond : S -> M bool) (body : S -> M S)
    (fuel : nat) (s : S) : M S :=
  match fuel with
  | O => fun t => (OutOfFuel, t)
  | Datatypes.S k =>
      b <- cond s ;;
      if b then
        _ <- emit Iter ;;
        s' <- body s ;;
        while cond body k s'
      else ret s
  end.

(** [runs cond body n c c']: [n] completed iterations of the loop lead from
    the configuration [c] (loop state and trace) to [c']: each time the
    condition was true and the body ran to its end. *)
Inductive runs {S : Type} (cond : S -> M bool) (body : S -> M S) :
    nat -> S * trace -> S * trace -> Prop :=
| runs_O c : runs cond body 0 c c
| runs_S n c s1 t1 tc s2 t2 :
    runs cond body n c (s1, t1) ->
    cond s1 t1 = (Return true, tc) ->
    body s1 (tc ++ [Iter]) = (Return s2, t2) ->
    runs cond body (Datatypes.S n) c (s2, t2).

(** ** Arithmetic as the code uses it *)

(** [a > b] *)
Definition Qgtb (a b : Q) : bool := negb (Qle_bool a b).

(** [a / b], raising [ZeroDivisionError] when [b] is zero. *)
Definition py_div (a b : Q) : M Q :=
  if Qeq_bool b 0 then raise ZeroDivisionError else ret (a / b).

(** Fuel that the two loops below never exhaust; any larger amount gives
    the same run (see [newton_raphson_total] and [bisection_total]). *)
Definition its_fuel (max_its : Z) : nat :=
  Datatypes.S (Datatypes.S (Z.to_nat max_its)).

(** Number of loop-body entries, and of callback evaluations, in a trace. *)
Definition is_Iter (e : event) : bool :=
  match e with Iter => true | _ => false end.
Definition is_CallF (e : event) : bool :=
  match e with CallF _ => true | _ => false end.
Definition is_CallDf (e : event) : bool :=
  match e with CallDf _ => true | _ => false end.

Definition count (p : event -> bool) (t : trace) : nat :=
  length (filter p t).

(** ** The solvers *)

Section Solvers.

Variable f : Q -> Q.
Variable df : Q -> Q.

Definition call_f (x : Q) : M Q := fun t => (Return (f x), t ++ [CallF x]).
Definition call_df (x : Q) : M Q := fun t => (Return (df x), t ++ [CallDf x]).

(** [x - f(x)/df(x)]: [f(x)] is evaluated, then [df(x)], then the
    quotient, then the difference. *)
Definition newton_update (x : Q) : M Q :=
  fx <- call_f x ;;
  dfx <- call_df x ;;
  q <- py_div fx dfx ;;
  ret (x - q).

(** *** newton_raphson *)

Record nr_state : Type := mk_nr {
  nr_x : Q;
  nr_new_x : Q;
  nr_current_its : Z
}.

Section Newton.
Variable eps : Q.
Variable max_its : Z.

(** [abs(x - new_x) > eps] *)
Definition nr_cond (st : nr_state) : M bool :=
  ret (Qgtb (Qabs (nr_x st - nr_new_x st)) eps).

(** The loop body, lines 37-41. *)
Definition nr_body (st : nr_state) : M nr_state :=
  let x := nr_new_x st in
  new_x <- newton_update x ;;
  if (nr_current_its st >? max_its)%Z then raise ConvergenceError
  else ret (mk_nr x new_x (nr_current_its st + 1)).

Definition newton_raphson_fuel (fuel : nat) (x_0 : Q) : M Q :=
  let x := x_0 in
  new_x <- newton_update x ;;
  st <- while nr_cond nr_body fuel (mk_nr x new_x 1) ;;
  ret (nr_new_x st).

Definition newton_raphson (x_0 : Q) : M Q :=
  newton_raphson_fuel (its_fuel max_its) x_0.
End Newton.

(** *** bisection *)

Record bis_state : Type := mk_bis {
  bis_x_l : Q;
  bis_x_r : Q;
  bis_new_x : Q;
  bis_current_its : Z
}.

Section Bisection.
Variable eps : Q.
Variable max_its : Z.

(** [abs(f(new_x)) > eps] *)
Definition bis_cond (st : bis_state) : M bool :=
  fn <- call_f (bis_new_x st) ;;
  ret (Qgtb (Qabs fn) eps).

(** The loop body, lines 75-85. *)
Definition bis_body (st : bis_state) : M bis_state :=
  let x_l := bis_x_l st in
  let x_r := bis_x_r st in
  fl <- call_f x_l ;;
  fr <- call_f x_r ;;
  if Qgtb (fl * fr) 0 then raise ValueError
  else
    let new_x := (x_r + x_l) / 2 in
    fn <- call_f new_x ;;
    fl' <- call_f x_l ;;
    let x_l' := if Qgtb (fn * fl') 0 then new_x else x_l in
    let x_r' := if Qgtb (fn * fl') 0 then x_r else new_x in
    if (bis_current_its st >? max_its)%Z then raise ConvergenceError
    else ret (mk_bis x_l' x_r' new_x (bis_current_its st + 1)).

Definition bis_init (x_0 x_1 : Q) : bis_state := mk_bis x_0 x_1 x_0 0.

Definition bisection_fuel (fuel : nat) (x_0 x_1 : Q) : M Q :=
  st <- while bis_cond bis_body fuel (bis_init x_0 x_1) ;;
  ret (bis_new_x st).

Definition bisection (x_0 x_1 : Q) : M Q :=
  bisection_fuel (its_fuel max_its) x_0 x_1.
End Bisection.

(** *** solve *)

(** The [try] block calls [newton_raphson] as a statement, so when it
    returns the function falls off its end and yields [None]. *)
Definition solve (x_0 x_1 eps : Q) (max_its_n max_its_b : Z) : M (option Q) :=
  try_except_ConvergenceError
    (_ <- newton_raphson eps max_its_n x_0 ;; ret None)
    (r <- bisection eps max_its_b x_0 x_1 ;; ret (Some r)).

End Solvers.

(** ** Loop invariant and loop measures *)

(** In every configuration of the Newton loop, [new_x] is the Newton update
    of [x], and evaluating it was the last thing done. *)
Definition nr_last_update (f df : Q -> Q) (c : nr_state * trace) : Prop :=
  exists pre,
    snd c = pre ++ [CallF (nr_x (fst c)); CallDf (nr_x (fst c))] /\
    ~ df (nr_x (fst c)) == 0 /\
    nr_new_x (fst c) = nr_x (fst c) - f (nr_x (fst c)) / df (nr_x (fst c)).

(** The number of iterations the counter of a loop state still allows to
    run to their end: the measure that bounds both loops. *)
Definition nr_mu (max_its : Z) (st : nr_state) : nat :=
  Z.to_nat (max_its + 1 - nr_current_its st).
Definition bis_mu (max_its : Z) (st : bis_state) : nat :=
  Z.to_nat (max_its + 1 - bis_current_its st).

(** ** newton_raphson on binary64 floats *)

(** The same function on the values its docstring names, IEEE 754 binary64
    floats, where a product can overflow to an infinity, [inf / inf] is a
    NaN, and every comparison with a NaN is false.  The arithmetic is
    Rocq's primitive binary64 arithmetic; a decimal literal denotes the
    nearest float, as in the source language.  No trace is kept here. *)
Module Float64.
Import PrimFloat.
#[local] Set Warnings "-inexact-float".
Local Open Scope float_scope.

Definition bind {A B} (c : outcome A) (k : A -> outcome B) : outcome B :=
  match c with
  | Return a => k a
  | Raise e => Raise e
  | OutOfFuel => OutOfFuel
  end.

(** [while cond: body], run for at most [fuel] evaluations of [cond]. *)
Fixpoint while {S : Type} (cond : S -> bool) (body : S -> outcome S)
    (fuel : nat) (s : S) : outcome S :=
  match fuel with
  | O => OutOfFuel
  | Datatypes.S k =>
      if cond s then bind (body s) (while cond body k) else Return s
  end.

(** [a / b]: [ZeroDivisionError] when [b == 0], which holds for both zeros
    and for no NaN. *)
Definition py_div (a b : float) : outcome float :=
  if eqb b 0 then Raise ZeroDivisionError else Return (a / b).

Record nr_state : Type := mk_nr {
  nr_x : float;
  nr_new_x : float;
  nr_current_its : Z
}.

Section Newton.
Variable f : float -> float.
Variable df : float -> float.
Variable eps : float.
Variable max_its : Z.

(** [x - f(x)/df(x)] *)
Definition newton_update (x : float) : outcome float :=
  bind (py_div (f x) (df x)) (fun q => Return (x - q)).

(** [abs(x - new_x) > eps] *)
Definition nr_cond (st : nr_state) : bool :=
  ltb eps (abs (nr_x st - nr_new_x st)).

(** The loop body, lines 37-41. *)
Definition nr_body (st : nr_state) : outcome nr_state :=
  let x := nr_new_x st in
  bind (newton_update x) (fun new_x =>
  if (nr_current_its st >? max_its)%Z then Raise ConvergenceError
  else Return (mk_nr x new_x (nr_current_its st + 1))).

(** The loop of lines 36-41, from the state set up by lines 33-35. *)
Definition nr_loop (fuel : nat) (x_0 : float) : outcome nr_state :=
  let x := x_0 in
  bind (newton_update x) (fun new_x =>
  while nr_cond nr_body fuel (mk_nr x new_x 1)).

Definition newton_raphson (x_0 : float) : outcome float :=
  bind (nr_loop (its_fuel max_its) x_0) (fun st => Return (nr_new_x st)).
End Newton.

(** [f(x) = x**2 - 2] and its derivative. *)
Definition sq2 (x : float) : float := x * x - 2.
Definition dsq2 (x : float) : float := 2 * x.

(** The measure that bounds the loop. *)
Definition nr_mu (max_its : Z) (st : nr_state) : nat :=
  Z.to_nat (max_its + 1 - nr_current_its st).
End Float64.

(** ** Concrete callbacks used in the examples *)

(** [f(x) = x**2 - 2] and its derivative. *)
Definition sq2 (x : Q) : Q := x * x - 2.
Definition dsq2 (x : Q) : Q := 2 * x.

(** [f(x) = x - 1] and its derivative. *)
Definition shift1 (x : Q) : Q := x - 1.
Definition one (_ : Q) : Q := 1.

(** [f(x) = x]. *)
Definition ident (x : Q) : Q := x.

(** ** Facts about the trace monad and [while] *)

Lemma bind_Return {A B} (c : M A) (k : A -> M B) t a t1 :
  c t = (Return a, t1) -> bind c k t = k a t1.
Proof. unfold bind; intros ->; reflexivity. Qed.

Lemma bind_Raise {A B} (c : M A) (k : A -> M B) t e t1 :
  c t = (Raise e, t1) -> bind c k t = (Raise e, t1).
Proof. unfold bind; intros ->; reflexivity. Qed.

Lemma bind_inv_Return {A B} (c : M A) (k : A -> M B) t b t2 :
  bind c k t = (Return b, t2) ->
  exists a t1, c t = (Return a, t1) /\ k a t1 = (Return b, t2).
Proof.
  unfold bind; destruct (c t) as [[a | e |] t1]; intros H; try discriminate.
  exists a, t1; split; [reflexivity | exact H].
Qed.

Lemma count_app p (t d : trace) : count p (t ++ d) = (count p t + count p d)%nat.
Proof. unfold count; rewrite filter_app, length_app; reflexivity. Qed.

Section WhileFacts.
Context {S : Type}.
Variable cond : S -> M bool.
Variable body : S -> M S.

Lemma while_unfold k s t :
  while cond body (Datatypes.S k) s t =
  match cond s t with
  | (Return true, t1) =>
      match body s (t1 ++ [Iter]) with
      | (Return s', t2) => while cond body k s' t2
      | (Raise e, t2) => (Raise e, t2)
      | (OutOfFuel, t2) => (OutOfFuel, t2)
      end
  | (Return false, t1) => (Return s, t1)
  | (Raise e, t1) => (Raise e, t1)
  | (OutOfFuel, t1) => (OutOfFuel, t1)
  end.
Proof.
  simpl; unfold bind, emit, ret.
  destruct (cond s t) as [[[|] | e |] t1]; reflexivity.
Qed.

(** A run that ends with fuel to spare ends the same way with more. *)
Lemma while_fuel_mono k :
  forall s t o t', while cond body k s t = (o, t') -> o <> OutOfFuel ->
  forall k', (k <= k')%nat -> while cond body k' s t = (o, t').
Proof.
  induction k as [| k IH]; intros s t o t' H Ho k' Hk.
  - simpl in H; inversion H; subst; congruence.
  - destruct k' as [| k']; [lia |].
    rewrite while_unfold in *.
    destruct (cond s t) as [[[|] | e |] t1]; try exact H.
    destruct (body s (t1 ++ [Iter])) as [[s' | e |] t2]; try exact H.
    apply (IH _ _ _ _ H Ho); lia.
Qed.

Lemma runs_head n :
  forall s t tc s1 t1 c,
  cond s t = (Return true, tc) ->
  body s (tc ++ [Iter]) = (Return s1, t1) ->
  runs cond body n (s1, t1) c -> runs cond body (Datatypes.S n) (s, t) c.
Proof.
  intros s t tc s1 t1 c Hc Hb Hr.
  remember (s1, t1) as c1 eqn:E.
  induction Hr as [c0 | n c0 sa ta tca sb tb Hr IH Hca Hba]; subst.
  - eapply runs_S; [apply runs_O | exact Hc | exact Hb].
  - eapply runs_S; [apply IH; reflexivity | exact Hca | exact Hba].
Qed.

(** After [n] completed iterations the loop goes on from where they end. *)
Lemma runs_while n c c' :
  runs cond body n c c' ->
  forall k, while cond body (n + k) (fst c) (snd c) = while cond body k (fst c') (snd c').
Proof.
  induction 1 as [c0 | n c0 s1 t1 tc s2 t2 Hr IH Hc Hb]; intros k.
  - reflexivity.
  - replace (Datatypes.S n + k)%nat with (n + Datatypes.S k)%nat by lia.
    rewrite IH; simpl fst; simpl snd.
    rewrite while_unfold, Hc, Hb; reflexivity.
Qed.

(** A loop that returns has run some completed iterations and then found
    its condition false. *)
Lemma while_Return_runs k :
  forall s t s' t', while cond body k s t = (Return s', t') ->
  exists n t0, runs cond body n (s, t) (s', t0) /\ cond s' t0 = (Return false, t') /\ (n < k)%nat.
Proof.
  induction k as [| k IH]; intros s t s' t' H.
  - discriminate H.
  - rewrite while_unfold in H.
    destruct (cond s t) as [[[|] | e |] t1] eqn:Hc; try discriminate H.
    + destruct (body s (t1 ++ [Iter])) as [[s1 | e |] t2] eqn:Hb; try discriminate H.
      destruct (IH _ _ _ _ H) as (n & t0 & Hr & Hf & Hn).
      exists (Datatypes.S n), t0; split; [| split; [exact Hf | lia]].
      eapply runs_head; eauto.
    + inversion H; subst.
      exists 0%nat, t; split; [apply runs_O | split; [exact Hc | lia]].
Qed.

(** Termination from a measure.  If [cond] always answers, and every
    iteration that completes lowers [mu], the loop ends before [mu s + 1]
    units of fuel are used and enters its body at most [mu s + 1] times. *)
Section Measure.
Variable mu : S -> nat.
Hypothesis cond_total : forall s t,
  exists b d, cond s t = (Return b, t ++ d) /\ count is_Iter d = 0%nat.
Hypothesis body_lowers : forall s t,
  exists o d, body s t = (o, t ++ d) /\ count is_Iter d = 0%nat /\
              o <> OutOfFuel /\
              (forall s', o = Return s' -> (mu s' < mu s)%nat).

Lemma while_terminates k :
  forall s t, (mu s < k)%nat ->
  exists o d, while cond body k s t = (o, t ++ d) /\ o <> OutOfFuel /\
              (count is_Iter d <= mu s + 1)%nat.
Proof.
  induction k as [| k IH]; intros s t Hk; [lia |].
  rewrite while_unfold.
  destruct (cond_total s t) as (b & d & -> & Hd).
  destruct b.
  - destruct (body_lowers s ((t ++ d) ++ [Iter])) as (o & d' & -> & Hd' & Ho & Hmu).
    destruct o as [s' | e |]; [| | congruence].
    + specialize (Hmu s' eq_refl).
      destruct (IH s' (((t ++ d) ++ [Iter]) ++ d') ltac:(lia)) as (o & d2 & -> & Ho2 & Hc).
      exists o, (d ++ [Iter] ++ d' ++ d2); split; [| split; [exact Ho2 |]].
      * rewrite <- !app_assoc; reflexivity.
      * rewrite !count_app, Hd, Hd'. unfold count at 1; simpl. lia.
    + exists (Raise e), (d ++ [Iter] ++ d'); split; [| split; [discriminate |]].
      * rewrite <- !app_assoc; reflexivity.
      * rewrite !count_app, Hd, Hd'. unfold count at 1; simpl. lia.
  - exists (Return s), d; split; [reflexivity | split; [discriminate |]].
    rewrite Hd; lia.
Qed.
End Measure.
End WhileFacts.

(** ** Comparisons *)

Lemma Qgtb_true a b : Qgtb a b = true <-> b < a.
Proof.
  unfold Qgtb; rewrite negb_true_iff, <- not_true_iff_false, Qle_bool_iff.
  split; [apply Qnot_le_lt | apply Qlt_not_le].
Qed.

Lemma Qgtb_false a b : Qgtb a b = false <-> a <= b.
Proof. unfold Qgtb; rewrite negb_false_iff; apply Qle_bool_iff. Qed.

Lemma Qeq_bool_false a b : Qeq_bool a b = false <-> ~ a == b.
Proof.
  rewrite <- not_true_iff_false, Qeq_bool_iff; reflexivity.
Qed.

(** If [n] has the strict sign of [l], and [l], [r] do not have the same
    strict sign, then [n], [r] do not have the same strict sign. *)
Lemma sign_transfer (n l r : Q) : 0 < n * l -> l * r <= 0 -> n * r <= 0.
Proof.
  intros Hnl Hlr.
  destruct (Qlt_le_dec 0 (n * r)) as [Hnr | Hnr]; [exfalso | exact Hnr].
  assert (H : 0 < (n * l) * (n * r)) by (apply Qmult_lt_0_compat; assumption).
  assert (Hsq : 0 <= n * n) by (apply Qsqr_nonneg || nra).
  assert (H' : (n * l) * (n * r) == (n * n) * (l * r)) by ring.
  rewrite H' in H.
  assert (Hle : (n * n) * (l * r) <= 0) by nra.
  apply (Qlt_irrefl 0), (Qlt_le_trans _ _ _ H Hle).
Qed.

(** ** The steps of the solvers, computed *)

Section StepFacts.
Variable f df : Q -> Q.

Lemma newton_update_eq x t :
  newton_update f df x t =
  if Qeq_bool (df x) 0
  then (Raise ZeroDivisionError, t ++ [CallF x; CallDf x])
  else (Return (x - f x / df x), t ++ [CallF x; CallDf x]).
Proof.
  unfold newton_update, bind, call_f, call_df, py_div, raise, ret.
  rewrite <- app_assoc; simpl.
  destruct (Qeq_bool (df x) 0); reflexivity.
Qed.

Lemma nr_body_eq max_its st t :
  nr_body f df max_its st t =
  let x := nr_new_x st in
  if Qeq_bool (df x) 0
  then (Raise ZeroDivisionError, t ++ [CallF x; CallDf x])
  else if (nr_current_its st >? max_its)%Z
       then (Raise ConvergenceError, t ++ [CallF x; CallDf x])
       else (Return (mk_nr x (x - f x / df x) (nr_current_its st + 1)),
             t ++ [CallF x; CallDf x]).
Proof.
  unfold nr_body, bind; rewrite newton_update_eq; cbv zeta.
  destruct (Qeq_bool (df (nr_new_x st)) 0); [reflexivity |].
  destruct (nr_current_its st >? max_its)%Z; reflexivity.
Qed.

Lemma bis_cond_eq eps st t :
  bis_cond f eps st t =
  (Return (Qgtb (Qabs (f (bis_new_x st))) eps), t ++ [CallF (bis_new_x st)]).
Proof. reflexivity. Qed.

Lemma bis_body_eq max_its st t :
  bis_body f max_its st t =
  let x_l := bis_x_l st in
  let x_r := bis_x_r st in
  let new_x := (x_r + x_l) / 2 in
  if Qgtb (f x_l * f x_r) 0
  then (Raise ValueError, t ++ [CallF x_l; CallF x_r])
  else if (bis_current_its st >? max_its)%Z
       then (Raise ConvergenceError,
             t ++ [CallF x_l; CallF x_r; CallF new_x; CallF x_l])
       else (Return (mk_bis (if Qgtb (f new_x * f x_l) 0 then new_x else x_l)
                            (if Qgtb (f new_x * f x_l) 0 then x_r else new_x)
                            new_x (bis_current_its st + 1)),
             t ++ [CallF x_l; CallF x_r; CallF new_x; CallF x_l]).
Proof.
  unfold bis_body, bind, call_f, raise, ret; cbv zeta.
  destruct (Qgtb (f (bis_x_l st) * f (bis_x_r st)) 0);
    [rewrite <- app_assoc; reflexivity |].
  destruct (bis_current_its st >? max_its)%Z;
    rewrite <- !app_assoc; reflexivity.
Qed.
End StepFacts.

(** ** Termination *)

Section Termination.
Variable f df : Q -> Q.
Variable eps : Q.
Variable max_its : Z.

Lemma nr_loop_terminates k st t :
  (nr_mu max_its st < k)%nat ->
  exists o d, while (nr_cond eps) (nr_body f df max_its) k st t = (o, t ++ d) /\
              o <> OutOfFuel /\ (count is_Iter d <= nr_mu max_its st + 1)%nat.
Proof.
  apply (while_terminates _ _ (nr_mu max_its)).
  - intros s t0; eexists; exists []; rewrite app_nil_r; split; reflexivity.
  - intros s t0; rewrite nr_body_eq; cbv zeta.
    destruct (Qeq_bool (df (nr_new_x s)) 0).
    { do 2 eexists; split; [reflexivity |].
      split; [reflexivity |]; split; discriminate. }
    destruct (nr_current_its s >? max_its)%Z eqn:Hc.
    { do 2 eexists; split; [reflexivity |].
      split; [reflexivity |]; split; discriminate. }
    do 2 eexists; split; [reflexivity |].
    split; [reflexivity |]; split; [discriminate |].
    intros s' [= <-]; unfold nr_mu; simpl.
    rewrite Z.gtb_ltb, Z.ltb_ge in Hc; lia.
Qed.

Lemma bis_loop_terminates k st t :
  (bis_mu max_its st < k)%nat ->
  exists o d, while (bis_cond f eps) (bis_body f max_its) k st t = (o, t ++ d) /\
              o <> OutOfFuel /\ (count is_Iter d <= bis_mu max_its st + 1)%nat.
Proof.
  apply (while_terminates _ _ (bis_mu max_its)).
  - intros s t0; rewrite bis_cond_eq; do 2 eexists; split; reflexivity.
  - intros s t0; rewrite bis_body_eq; cbv zeta.
    destruct (Qgtb (f (bis_x_l s) * f (bis_x_r s)) 0).
    { do 2 eexists; split; [reflexivity |].
      split; [reflexivity |]; split; discriminate. }
    destruct (bis_current_its s >? max_its)%Z eqn:Hc.
    { do 2 eexists; split; [reflexivity |].
      split; [reflexivity |]; split; discriminate. }
    do 2 eexists; split; [reflexivity |].
    split; [reflexivity |]; split; [discriminate |].
    intros s' [= <-]; unfold bis_mu; simpl.
    rewrite Z.gtb_ltb, Z.ltb_ge in Hc; lia.
Qed.

(** [newton_raphson] always ends; it enters its loop body at most
    [max(max_its, 0) + 1] times, and more fuel changes nothing. *)
Lemma newton_raphson_total x_0 t :
  exists o d,
    newton_raphson f df eps max_its x_0 t = (o, t ++ d) /\
    o <> OutOfFuel /\
    (count is_Iter d <= Z.to_nat max_its + 1)%nat /\
    forall k, (its_fuel max_its <= k)%nat ->
              newton_raphson_fuel f df eps max_its k x_0 t = (o, t ++ d).
Proof.
  unfold newton_raphson, newton_raphson_fuel, bind.
  rewrite newton_update_eq.
  destruct (Qeq_bool (df x_0) 0).
  { exists (Raise ZeroDivisionError), [CallF x_0; CallDf x_0].
    repeat split; [discriminate | unfold count; simpl; lia]. }
  set (st0 := mk_nr x_0 (x_0 - f x_0 / df x_0) 1).
  set (t0 := t ++ [CallF x_0; CallDf x_0]).
  assert (Hmu : (nr_mu max_its st0 < its_fuel max_its)%nat)
    by (unfold nr_mu, its_fuel; simpl; lia).
  destruct (nr_loop_terminates _ st0 t0 Hmu) as (o & d & Hw & Ho & Hc).
  assert (Hmono : forall k, (its_fuel max_its <= k)%nat ->
            while (nr_cond eps) (nr_body f df max_its) k st0 t0 = (o, t0 ++ d))
    by (intros k Hk; exact (while_fuel_mono _ _ _ _ _ _ _ Hw Ho _ Hk)).
  assert (Hcount : (count is_Iter ([CallF x_0; CallDf x_0] ++ d)
                    <= Z.to_nat max_its + 1)%nat).
  { rewrite count_app; unfold count at 1; simpl.
    unfold nr_mu in Hc; simpl in Hc; lia. }
  unfold t0 in *; rewrite <- app_assoc in *.
  destruct o as [s | e |]; [| | congruence].
  - exists (Return (nr_new_x s)), ([CallF x_0; CallDf x_0] ++ d).
    rewrite Hw; repeat split; [discriminate | exact Hcount |].
    intros k Hk; rewrite (Hmono k Hk); reflexivity.
  - exists (Raise e), ([CallF x_0; CallDf x_0] ++ d).
    rewrite Hw; repeat split; [discriminate | exact Hcount |].
    intros k Hk; rewrite (Hmono k Hk); reflexivity.
Qed.

(** [bisection] always ends; it enters its loop body at most
    [max(max_its + 1, 0) + 1] times, and more fuel changes nothing. *)
Lemma bisection_total x_0 x_1 t :
  exists o d,
    bisection f eps max_its x_0 x_1 t = (o, t ++ d) /\
    o <> OutOfFuel /\
    (count is_Iter d <= Z.to_nat (max_its + 1) + 1)%nat /\
    forall k, (its_fuel max_its <= k)%nat ->
              bisection_fuel f eps max_its k x_0 x_1 t = (o, t ++ d).
Proof.
  unfold bisection, bisection_fuel, bind.
  set (st0 := bis_init x_0 x_1).
  assert (Hmu : (bis_mu max_its st0 < its_fuel max_its)%nat)
    by (unfold bis_mu, its_fuel; simpl; lia).
  destruct (bis_loop_terminates _ st0 t Hmu) as (o & d & Hw & Ho & Hc).
  assert (Hmono : forall k, (its_fuel max_its <= k)%nat ->
            while (bis_cond f eps) (bis_body f max_its) k st0 t = (o, t ++ d))
    by (intros k Hk; exact (while_fuel_mono _ _ _ _ _ _ _ Hw Ho _ Hk)).
  assert (Hcount : (count is_Iter d <= Z.to_nat (max_its + 1) + 1)%nat).
  { unfold bis_mu in Hc; simpl in Hc.
    replace (max_its + 1 - 0)%Z with (max_its + 1)%Z in Hc by lia; exact Hc. }
  destruct o as [s | e |]; [| | congruence].
  - exists (Return (bis_new_x s)), d.
    rewrite Hw; repeat split; [discriminate | exact Hcount |].
    intros k Hk; rewrite (Hmono k Hk); reflexivity.
  - exists (Raise e), d.
    rewrite Hw; repeat split; [discriminate | exact Hcount |].
    intros k Hk; rewrite (Hmono k Hk); reflexivity.
Qed.
End Termination.

(** ** The composite solver *)

(** C1: when the inner [newton_raphson] call raises [ConvergenceError],
    [solve] gives exactly what [bisection(f, x_0, x_1, eps, max_its_b)]
    gives (its value or its exception), run after it; when the inner call
    returns, its root is dropped and [solve] returns [None]. *)
Theorem solve_falls_back_or_returns_None f df x_0 x_1 eps max_its_n max_its_b t :
  (forall t1,
      newton_raphson f df eps max_its_n x_0 t = (Raise ConvergenceError, t1) ->
      solve f df x_0 x_1 eps max_its_n max_its_b t =
      outcome_map Some (bisection f eps max_its_b x_0 x_1 t1))
  /\
  (forall r t1,
      newton_raphson f df eps max_its_n x_0 t = (Return r, t1) ->
      solve f df x_0 x_1 eps max_its_n max_its_b t = (Return None, t1)).
Proof.
  split.
  - intros t1 H.
    unfold solve, try_except_ConvergenceError.
    rewrite (bind_Raise _ _ _ _ _ H).
    unfold bind, ret, outcome_map.
    destruct (bisection f eps max_its_b x_0 x_1 t1) as [[x | e |] t2]; reflexivity.
  - intros r t1 H.
    unfold solve, try_except_ConvergenceError.
    rewrite (bind_Return _ _ _ _ _ H); reflexivity.
Qed.

(** With [max_its_n = 0] Newton-Raphson on [x**2 - 2] from [1] gives up and
    bisection on [[1, 2]] answers; with [max_its_n = 20] it converges and
    [solve] returns [None]. *)
Lemma solve_falls_back_or_returns_None_witness :
  solve sq2 dsq2 1 2 (1 # 100) 0 20 [] =
    outcome_map Some
      (bisection sq2 (1 # 100) 20 1 2 [CallF 1; CallDf 1; Iter; CallF (3 # 2); CallDf (3 # 2)])
  /\ solve sq2 dsq2 1 2 (1 # 100) 20 20 [] =
     (Return None,
      [CallF 1; CallDf 1; Iter; CallF (3 # 2); CallDf (3 # 2); Iter;
       CallF (68 # 48); CallDf (68 # 48)]).
Proof.
  split.
  - apply (proj1 (solve_falls_back_or_returns_None sq2 dsq2 1 2 (1 # 100) 0 20 [])).
    vm_compute; reflexivity.
  - apply (proj2 (solve_falls_back_or_returns_None sq2 dsq2 1 2 (1 # 100) 20 20 [])
             (21270528 # 15040512)).
    vm_compute; reflexivity.
Defined.

(** ** Bisection *)

(** C2: whenever [bisection] returns, the value [x] it returns satisfies
    [abs(f(x)) <= eps]; this holds for every [f] and every pair of end
    points, in particular for a continuous [f] changing sign on them. *)
Theorem bisection_result_within_tolerance f eps max_its x_0 x_1 t x t' :
  bisection f eps max_its x_0 x_1 t = (Return x, t') ->
  Qabs (f x) <= eps.
Proof.
  unfold bisection, bisection_fuel; intros H.
  apply bind_inv_Return in H; destruct H as (st & t1 & Hw & Hr).
  inversion Hr; subst; clear Hr.
  apply while_Return_runs in Hw; destruct Hw as (n & t0 & _ & Hc & _).
  rewrite bis_cond_eq in Hc; inversion Hc as [[Hb Ht]].
  apply Qgtb_false; exact Hb.
Qed.

(** Bisection of [x**2 - 2] on [[0, 2]] with [eps = 1/10] returns [23/16]. *)
Lemma bisection_result_within_tolerance_witness :
  Qabs (sq2 (1472 # 1024)) <= 1 # 10.
Proof.
  apply (bisection_result_within_tolerance sq2 (1 # 10) 20 0 2 [] (1472 # 1024)
           (snd (bisection sq2 (1 # 10) 20 0 2 []))).
  vm_compute; reflexivity.
Defined.

(** C9: when [abs(f(x_0)) <= eps] holds on entry, [bisection] returns
    [x_0] itself, and all it has done is the one evaluation [f(x_0)] of the
    loop test: no loop body is entered, so no sign check and no midpoint. *)
Theorem bisection_returns_x0_at_once f eps max_its x_0 x_1 t :
  Qabs (f x_0) <= eps ->
  bisection f eps max_its x_0 x_1 t = (Return x_0, t ++ [CallF x_0]).
Proof.
  intros H; apply Qgtb_false in H.
  unfold bisection, bisection_fuel, its_fuel, bind.
  rewrite while_unfold, bis_cond_eq; simpl; rewrite H; reflexivity.
Qed.

(** [x - 1] already vanishes at the left end point [1]. *)
Lemma bisection_returns_x0_at_once_witness :
  bisection shift1 (1 # 2) 20 1 5 [] = (Return 1, [CallF 1]).
Proof.
  apply (bisection_returns_x0_at_once shift1 (1 # 2) 20 1 5 []).
  vm_compute; discriminate.
Defined.

(** The sign test of the loop body holds in every configuration the loop
    reaches from a bracket that passes it. *)
Lemma bis_runs_bracket f eps max_its x_0 x_1 t n st t' :
  f x_0 * f x_1 <= 0 ->
  runs (bis_cond f eps) (bis_body f max_its) n (bis_init x_0 x_1, t) (st, t') ->
  f (bis_x_l st) * f (bis_x_r st) <= 0.
Proof.
  intros H0 Hr.
  remember (bis_init x_0 x_1, t) as c0 eqn:E0.
  remember (st, t') as c eqn:E.
  revert st t' E.
  induction Hr as [c | n c s1 t1 tc s2 t2 Hr IH Hc Hb]; intros st t' E.
  - subst c; inversion E; subst; exact H0.
  - inversion E; subst s2 t2; clear E.
    specialize (IH E0 s1 t1 eq_refl).
    rewrite bis_body_eq in Hb; cbv zeta in Hb.
    destruct (Qgtb (f (bis_x_l s1) * f (bis_x_r s1)) 0); [discriminate |].
    destruct (bis_current_its s1 >? max_its)%Z; [discriminate |].
    inversion Hb; subst st; clear Hb; simpl.
    destruct (Qgtb (f ((bis_x_r s1 + bis_x_l s1) / 2) * f (bis_x_l s1)) 0) eqn:Hs.
    + apply Qgtb_true in Hs. exact (sign_transfer _ _ _ Hs IH).
    + apply Qgtb_false in Hs. rewrite Qmult_comm. exact Hs.
Qed.

(** C6: from a bracket with [f(x_0) * f(x_1) <= 0], after any number of
    completed iterations of the bisection loop the bounds still satisfy
    [f(x_l) * f(x_r) <= 0]; with a tolerance [eps >= 0] this says that
    [f(x_l)] and [f(x_r)] have opposite signs or one of them is within
    tolerance. *)
Theorem bisection_bracket_invariant f eps max_its x_0 x_1 t n st t' :
  f x_0 * f x_1 <= 0 ->
  runs (bis_cond f eps) (bis_body f max_its) n (bis_init x_0 x_1, t) (st, t') ->
  f (bis_x_l st) * f (bis_x_r st) <= 0 /\
  (0 <= eps ->
   f (bis_x_l st) * f (bis_x_r st) < 0 \/
   Qabs (f (bis_x_l st)) <= eps \/ Qabs (f (bis_x_r st)) <= eps).
Proof.
  intros H0 Hr.
  pose proof (bis_runs_bracket _ _ _ _ _ _ _ _ _ H0 Hr) as Hle.
  split; [exact Hle |].
  intros Heps.
  destruct (Qle_lt_or_eq _ _ Hle) as [Hlt | Heq]; [left; exact Hlt | right].
  destruct (Qmult_integral _ _ Heq) as [Hz | Hz]; [left | right];
    rewrite Hz; exact Heps.
Qed.

(** The bracket of [x**2 - 2] after the first iteration from [[1, 2]]. *)
Lemma bisection_bracket_invariant_witness :
  let st := mk_bis 1 (3 # 2) (3 # 2) 1 in
  sq2 (bis_x_l st) * sq2 (bis_x_r st) <= 0 /\
  (sq2 (bis_x_l st) * sq2 (bis_x_r st) < 0 \/
   Qabs (sq2 (bis_x_l st)) <= 1 # 10 \/ Qabs (sq2 (bis_x_r st)) <= 1 # 10).
Proof.
  intros st.
  assert (Hr : runs (bis_cond sq2 (1 # 10)) (bis_body sq2 20) 1
                    (bis_init 1 2, [])
                    (st, [CallF 1; Iter; CallF 1; CallF 2; CallF (3 # 2); CallF 1])).
  { apply (runs_S _ _ 0 _ (bis_init 1 2) [] [CallF 1]);
      [apply runs_O | vm_compute; reflexivity | vm_compute; reflexivity]. }
  assert (H0 : sq2 1 * sq2 2 <= 0) by (vm_compute; discriminate).
  destruct (bisection_bracket_invariant sq2 (1 # 10) 20 1 2 [] 1 st _ H0 Hr)
    as [Ha Hb].
  split; [exact Ha | apply Hb; vm_compute; discriminate].
Defined.

(** C4 (as amended): an iteration of the bisection loop that runs to its end
    (it passes the sign test and the cap, and hands its state to the next
    test) takes the midpoint [new_x = (x_r + x_l) / 2] and replaces by it the
    bound whose [f] value has the strict sign of [f(new_x)]: [x_l] when
    [f(new_x) * f(x_l) > 0], and [x_r] in every other case, so in
    particular when [f(new_x) * f(x_r) > 0] and in the tie [f(new_x) == 0];
    the other bound is kept. *)
Theorem bisection_iteration_replaces_bound f max_its st t st' t' :
  bis_body f max_its st t = (Return st', t') ->
  bis_new_x st' = (bis_x_r st + bis_x_l st) / 2 /\
  (0 < f (bis_new_x st') * f (bis_x_l st) ->
   bis_x_l st' = bis_new_x st' /\ bis_x_r st' = bis_x_r st) /\
  (f (bis_new_x st') * f (bis_x_l st) <= 0 ->
   bis_x_l st' = bis_x_l st /\ bis_x_r st' = bis_new_x st') /\
  (0 < f (bis_new_x st') * f (bis_x_r st) ->
   bis_x_l st' = bis_x_l st /\ bis_x_r st' = bis_new_x st') /\
  (f (bis_new_x st') == 0 ->
   bis_x_l st' = bis_x_l st /\ bis_x_r st' = bis_new_x st').
Proof.
  intros H; rewrite bis_body_eq in H; cbv zeta in H.
  destruct (Qgtb (f (bis_x_l st) * f (bis_x_r st)) 0) eqn:Hchk; [discriminate |].
  destruct (bis_current_its st >? max_its)%Z; [discriminate |].
  apply Qgtb_false in Hchk.
  inversion H; subst st'; clear H; simpl.
  set (n := (bis_x_r st + bis_x_l st) / 2) in *.
  assert (Hright : f n * f (bis_x_l st) <= 0 ->
                   (if Qgtb (f n * f (bis_x_l st)) 0 then n else bis_x_l st) = bis_x_l st /\
                   (if Qgtb (f n * f (bis_x_l st)) 0 then bis_x_r st else n) = n).
  { intros Hle; apply Qgtb_false in Hle; rewrite Hle; split; reflexivity. }
  split; [reflexivity |].
  split; [| split; [exact Hright | split]].
  - intros Hgt; apply Qgtb_true in Hgt; rewrite Hgt; split; reflexivity.
  - intros Hgt; apply Hright.
    destruct (Qlt_le_dec 0 (f n * f (bis_x_l st))) as [Hl | Hl]; [exfalso | exact Hl].
    assert (Hc : f n * f (bis_x_l st) <= 0).
    { apply (sign_transfer _ (f (bis_x_r st))); [exact Hgt |].
      rewrite Qmult_comm; exact Hchk. }
    exact (Qlt_irrefl _ (Qlt_le_trans _ _ _ Hl Hc)).
  - intros Hz; apply Hright. rewrite Hz, Qmult_0_l. apply Qle_refl.
Qed.

(** The tie of [f(x) = x] at the midpoint of [[-1, 1]]. *)
Lemma bisection_iteration_replaces_bound_witness :
  let st' := mk_bis (-1) (0 # 2) (0 # 2) 1 in
  bis_x_l st' = -1 /\ bis_x_r st' = bis_new_x st'.
Proof.
  intros st'.
  assert (Hb : bis_body ident 20 (bis_init (-1) 1) [] =
               (Return st', [CallF (-1); CallF 1; CallF (0 # 2); CallF (-1)]))
    by (vm_compute; reflexivity).
  destruct (bisection_iteration_replaces_bound ident 20 _ _ _ _ Hb)
    as (_ & _ & _ & _ & Htie).
  apply Htie; vm_compute; reflexivity.
Defined.

(** C4, counterexample: for [f(x) = x] on the bracket [[-1, 1]] the first
    midpoint is an exact root, a tie; the iteration leaves [x_l] at [-1] and
    moves [x_r] to the midpoint, so [x_l] is not the bound replaced. *)
Lemma bisection_tie_keeps_left_bound :
  exists st' t',
    bis_body ident 20 (bis_init (-1) 1) [] = (Return st', t') /\
    ident (bis_new_x st') == 0 /\
    bis_x_l st' = -1 /\
    ~ bis_x_l st' == bis_new_x st' /\
    bis_x_r st' = bis_new_x st'.
Proof.
  exists (mk_bis (-1) (0 # 2) (0 # 2) 1),
         [CallF (-1); CallF 1; CallF (0 # 2); CallF (-1)].
  repeat split; vm_compute; discriminate.
Qed.

(** C5: in every iteration the body first evaluates [f(x_l)] and [f(x_r)]
    and raises [ValueError] (the invalid-bracket error) when
    [f(x_l) * f(x_r) > 0]; [bisection] raises it from whatever
    configuration its loop has reached when the loop test still holds there
    and the sign test fails; and [solve] lets it through. *)
Theorem bisection_invalid_bracket_propagates f df eps max_its :
  (forall st t,
      exists o d, bis_body f max_its st t =
                  (o, t ++ [CallF (bis_x_l st); CallF (bis_x_r st)] ++ d))
  /\
  (forall st t,
      0 < f (bis_x_l st) * f (bis_x_r st) ->
      bis_body f max_its st t =
      (Raise ValueError, t ++ [CallF (bis_x_l st); CallF (bis_x_r st)]))
  /\
  (forall x_0 x_1 t n st t1,
      runs (bis_cond f eps) (bis_body f max_its) n (bis_init x_0 x_1, t) (st, t1) ->
      eps < Qabs (f (bis_new_x st)) ->
      0 < f (bis_x_l st) * f (bis_x_r st) ->
      bisection f eps max_its x_0 x_1 t =
      (Raise ValueError,
       t1 ++ [CallF (bis_new_x st); Iter; CallF (bis_x_l st); CallF (bis_x_r st)]))
  /\
  (forall x_0 x_1 max_its_n t t1 t2,
      newton_raphson f df eps max_its_n x_0 t = (Raise ConvergenceError, t1) ->
      bisection f eps max_its x_0 x_1 t1 = (Raise ValueError, t2) ->
      solve f df x_0 x_1 eps max_its_n max_its t = (Raise ValueError, t2)).
Proof.
  assert (Hraise : forall st t,
             0 < f (bis_x_l st) * f (bis_x_r st) ->
             bis_body f max_its st t =
             (Raise ValueError, t ++ [CallF (bis_x_l st); CallF (bis_x_r st)])).
  { intros st t H; apply Qgtb_true in H.
    rewrite bis_body_eq; cbv zeta; rewrite H; reflexivity. }
  split; [| split; [exact Hraise | split]].
  - intros st t; rewrite bis_body_eq; cbv zeta.
    destruct (Qgtb (f (bis_x_l st) * f (bis_x_r st)) 0).
    { exists (Raise ValueError), []; rewrite app_nil_r; reflexivity. }
    destruct (bis_current_its st >? max_its)%Z; do 2 eexists; reflexivity.
  - intros x_0 x_1 t n st t1 Hr Hc Hs.
    destruct (bisection_total f eps max_its x_0 x_1 t) as (o & d & Hb & _ & _ & Hk).
    rewrite Hb.
    specialize (Hk (n + its_fuel max_its)%nat ltac:(lia)).
    unfold bisection_fuel, bind in Hk.
    pose proof (runs_while _ _ _ _ _ Hr (its_fuel max_its)) as Hw.
    simpl fst in Hw; simpl snd in Hw; rewrite Hw in Hk; clear Hw.
    unfold its_fuel in Hk; rewrite while_unfold, bis_cond_eq in Hk.
    apply Qgtb_true in Hc; rewrite Hc, Hraise in Hk by exact Hs.
    rewrite <- !app_assoc in Hk; simpl in Hk.
    destruct o; inversion Hk; reflexivity.
  - intros x_0 x_1 max_its_n t t1 t2 Hn Hb.
    unfold solve, try_except_ConvergenceError.
    rewrite (bind_Raise _ _ _ _ _ Hn), (bind_Raise _ _ _ _ _ Hb); reflexivity.
Qed.

(** [x - 1] is positive at both ends of [[2, 3]]; Newton-Raphson from [2]
    with [max_its_n = 0] gives up first. *)
Lemma bisection_invalid_bracket_propagates_witness :
  bis_body shift1 20 (bis_init 2 3) [] = (Raise ValueError, [CallF 2; CallF 3])
  /\ bisection shift1 (1 # 10) 20 2 3 [] =
     (Raise ValueError, [CallF 2; Iter; CallF 2; CallF 3])
  /\ solve shift1 one 2 3 (1 # 10) 0 20 [] =
     (Raise ValueError,
      [CallF 2; CallDf 2; Iter; CallF (1 # 1); CallDf (1 # 1);
       CallF 2; Iter; CallF 2; CallF 3]).
Proof.
  destruct (bisection_invalid_bracket_propagates shift1 one (1 # 10) 20)
    as (_ & Hbody & Hbis & Hsolve).
  split; [| split].
  - apply (Hbody (bis_init 2 3) []); vm_compute; reflexivity.
  - apply (Hbis 2 3 [] 0%nat (bis_init 2 3) []);
      [apply runs_O | vm_compute; reflexivity | vm_compute; reflexivity].
  - apply (Hsolve 2 3 0%Z [] [CallF 2; CallDf 2; Iter; CallF (1 # 1); CallDf (1 # 1)]);
      vm_compute; reflexivity.
Defined.

(** ** Newton-Raphson *)

Lemma nr_runs_last_update f df eps max_its n c c' :
  runs (nr_cond eps) (nr_body f df max_its) n c c' ->
  nr_last_update f df c -> nr_last_update f df c'.
Proof.
  induction 1 as [c | n c s1 t1 tc s2 t2 Hr IH Hc Hb]; intros H0; [exact H0 |].
  rewrite nr_body_eq in Hb; cbv zeta in Hb.
  destruct (Qeq_bool (df (nr_new_x s1)) 0) eqn:Hd; [discriminate |].
  destruct (nr_current_its s1 >? max_its)%Z; [discriminate |].
  inversion Hb; subst s2 t2; clear Hb.
  exists (tc ++ [Iter]); simpl.
  split; [reflexivity | split; [| reflexivity]].
  apply Qeq_bool_false; exact Hd.
Qed.

(** In exact arithmetic: when [newton_raphson] returns, the value [r] it
    returns is the Newton update of the previous iterate [x_prev], computed
    by the last evaluations of [f] and [df] of the call, and the step from
    [x_prev] to [r] satisfies [abs(x_prev - r) <= eps]. *)
Theorem newton_raphson_result_is_last_step f df eps max_its x_0 t r t' :
  newton_raphson f df eps max_its x_0 t = (Return r, t') ->
  exists x_prev pre,
    t' = pre ++ [CallF x_prev; CallDf x_prev] /\
    ~ df x_prev == 0 /\
    r = x_prev - f x_prev / df x_prev /\
    Qabs (x_prev - r) <= eps.
Proof.
  unfold newton_raphson, newton_raphson_fuel; intros H.
  apply bind_inv_Return in H; destruct H as (new_x & t0 & Hu & H).
  apply bind_inv_Return in H; destruct H as (st & t1 & Hw & Hr).
  inversion Hr; subst r t1; clear Hr.
  rewrite newton_update_eq in Hu.
  destruct (Qeq_bool (df x_0) 0) eqn:Hd; [discriminate |].
  inversion Hu; subst new_x t0; clear Hu.
  apply while_Return_runs in Hw; destruct Hw as (n & t1 & Hruns & Hc & _).
  inversion Hc as [[Hb Ht]]; subst t1.
  apply (nr_runs_last_update f df) in Hruns.
  - destruct Hruns as (pre & Ht & Hdf & Hnew); simpl in Ht, Hdf, Hnew.
    exists (nr_x st), pre; repeat split; try assumption.
    apply Qgtb_false; exact Hb.
  - exists t; simpl; split; [reflexivity | split; [| reflexivity]].
    apply Qeq_bool_false; exact Hd.
Qed.

(** Newton-Raphson on [x**2 - 2] from [1] with [eps = 1/100]. *)
Lemma newton_raphson_result_is_last_step_witness :
  exists x_prev pre,
    [CallF 1; CallDf 1; Iter; CallF (3 # 2); CallDf (3 # 2); Iter;
     CallF (68 # 48); CallDf (68 # 48)] = pre ++ [CallF x_prev; CallDf x_prev] /\
    ~ dsq2 x_prev == 0 /\
    21270528 # 15040512 = x_prev - sq2 x_prev / dsq2 x_prev /\
    Qabs (x_prev - (21270528 # 15040512)) <= 1 # 100.
Proof.
  apply (newton_raphson_result_is_last_step sq2 dsq2 (1 # 100) 20 1 []).
  vm_compute; reflexivity.
Defined.

(** ** Iteration caps *)

(** If the Newton loop reaches a configuration whose counter is already
    above [max_its] and whose step is still above [eps], the next iteration
    raises [ConvergenceError] (unless the update itself divides by zero). *)
Lemma nr_cap_exceeded f df eps max_its x_0 t new_x t0 n st t1 :
  newton_update f df x_0 t = (Return new_x, t0) ->
  runs (nr_cond eps) (nr_body f df max_its) n (mk_nr x_0 new_x 1, t0) (st, t1) ->
  eps < Qabs (nr_x st - nr_new_x st) ->
  (max_its < nr_current_its st)%Z ->
  ~ df (nr_new_x st) == 0 ->
  newton_raphson f df eps max_its x_0 t =
  (Raise ConvergenceError,
   t1 ++ [Iter; CallF (nr_new_x st); CallDf (nr_new_x st)]).
Proof.
  intros Hu Hr Hc Hits Hdf.
  destruct (newton_raphson_total f df eps max_its x_0 t) as (o & d & Hn & _ & _ & Hk).
  rewrite Hn.
  specialize (Hk (n + its_fuel max_its)%nat ltac:(lia)).
  unfold newton_raphson_fuel in Hk.
  rewrite (bind_Return _ _ _ _ _ Hu) in Hk; unfold bind in Hk.
  pose proof (runs_while _ _ _ _ _ Hr (its_fuel max_its)) as Hw.
  simpl fst in Hw; simpl snd in Hw; rewrite Hw in Hk; clear Hw.
  unfold its_fuel in Hk; rewrite while_unfold in Hk.
  unfold nr_cond at 1, ret in Hk.
  apply Qgtb_true in Hc; rewrite Hc in Hk.
  rewrite nr_body_eq in Hk; cbv zeta in Hk.
  apply Qeq_bool_false in Hdf; rewrite Hdf in Hk.
  apply Z.gtb_lt in Hits; rewrite Hits in Hk.
  rewrite <- !app_assoc in Hk; simpl in Hk.
  destruct o; inversion Hk; reflexivity.
Qed.

(** The same for bisection, started on a bracket that passes the sign
    test. *)
Lemma bis_cap_exceeded f eps max_its x_0 x_1 t n st t1 :
  f x_0 * f x_1 <= 0 ->
  runs (bis_cond f eps) (bis_body f max_its) n (bis_init x_0 x_1, t) (st, t1) ->
  eps < Qabs (f (bis_new_x st)) ->
  (max_its < bis_current_its st)%Z ->
  bisection f eps max_its x_0 x_1 t =
  (Raise ConvergenceError,
   t1 ++ [CallF (bis_new_x st); Iter; CallF (bis_x_l st); CallF (bis_x_r st);
          CallF ((bis_x_r st + bis_x_l st) / 2); CallF (bis_x_l st)]).
Proof.
  intros H0 Hr Hc Hits.
  pose proof (bis_runs_bracket _ _ _ _ _ _ _ _ _ H0 Hr) as Hs.
  destruct (bisection_total f eps max_its x_0 x_1 t) as (o & d & Hb & _ & _ & Hk).
  rewrite Hb.
  specialize (Hk (n + its_fuel max_its)%nat ltac:(lia)).
  unfold bisection_fuel, bind in Hk.
  pose proof (runs_while _ _ _ _ _ Hr (its_fuel max_its)) as Hw.
  simpl fst in Hw; simpl snd in Hw; rewrite Hw in Hk; clear Hw.
  unfold its_fuel in Hk; rewrite while_unfold, bis_cond_eq in Hk.
  apply Qgtb_true in Hc; rewrite Hc in Hk.
  rewrite bis_body_eq in Hk; cbv zeta in Hk.
  apply Qgtb_false in Hs; rewrite Hs in Hk.
  apply Z.gtb_lt in Hits; rewrite Hits in Hk.
  rewrite <- !app_assoc in Hk; simpl in Hk.
  destruct o; inversion Hk; reflexivity.
Qed.

(** C7: both solvers raise [ConvergenceError] when the root needs more
    iterations than the cap allows: whenever the loop comes back to its
    test with the counter above [max_its] and the tolerance still unmet
    (for Newton-Raphson provided the next update does not divide by zero,
    for bisection from a bracket that passes the sign test).  With
    [max_its = 0] that is: Newton-Raphson raises as soon as its first step
    is above [eps], bisection as soon as [f] is above [eps] in absolute
    value at [x_0] and at the first midpoint. *)
Theorem low_cap_raises_ConvergenceError f df eps :
  (forall max_its x_0 t new_x t0 n st t1,
      newton_update f df x_0 t = (Return new_x, t0) ->
      runs (nr_cond eps) (nr_body f df max_its) n (mk_nr x_0 new_x 1, t0) (st, t1) ->
      eps < Qabs (nr_x st - nr_new_x st) ->
      (max_its < nr_current_its st)%Z ->
      ~ df (nr_new_x st) == 0 ->
      exists t', newton_raphson f df eps max_its x_0 t = (Raise ConvergenceError, t'))
  /\
  (forall max_its x_0 x_1 t n st t1,
      f x_0 * f x_1 <= 0 ->
      runs (bis_cond f eps) (bis_body f max_its) n (bis_init x_0 x_1, t) (st, t1) ->
      eps < Qabs (f (bis_new_x st)) ->
      (max_its < bis_current_its st)%Z ->
      exists t', bisection f eps max_its x_0 x_1 t = (Raise ConvergenceError, t'))
  /\
  (forall x_0 t,
      ~ df x_0 == 0 ->
      eps < Qabs (x_0 - (x_0 - f x_0 / df x_0)) ->
      ~ df (x_0 - f x_0 / df x_0) == 0 ->
      exists t', newton_raphson f df eps 0 x_0 t = (Raise ConvergenceError, t'))
  /\
  (forall x_0 x_1 t,
      f x_0 * f x_1 <= 0 ->
      eps < Qabs (f x_0) ->
      eps < Qabs (f ((x_1 + x_0) / 2)) ->
      exists t', bisection f eps 0 x_0 x_1 t = (Raise ConvergenceError, t')).
Proof.
  split; [| split; [| split]].
  - intros max_its x_0 t new_x t0 n st t1 Hu Hr Hc Hits Hdf.
    eexists; exact (nr_cap_exceeded _ _ _ _ _ _ _ _ _ _ _ Hu Hr Hc Hits Hdf).
  - intros max_its x_0 x_1 t n st t1 H0 Hr Hc Hits.
    eexists; exact (bis_cap_exceeded _ _ _ _ _ _ _ _ _ H0 Hr Hc Hits).
  - intros x_0 t Hd0 Hstep Hd1.
    assert (Hu : newton_update f df x_0 t =
                 (Return (x_0 - f x_0 / df x_0), t ++ [CallF x_0; CallDf x_0])).
    { rewrite newton_update_eq.
      apply Qeq_bool_false in Hd0; rewrite Hd0; reflexivity. }
    eexists.
    apply (nr_cap_exceeded f df eps 0 x_0 t _ _ 0%nat _ _ Hu (runs_O _ _ _));
      simpl; [exact Hstep | lia | exact Hd1].
  - intros x_0 x_1 t H0 Hc0 Hc1.
    set (m := (x_1 + x_0) / 2).
    set (st1 := mk_bis (if Qgtb (f m * f x_0) 0 then m else x_0)
                       (if Qgtb (f m * f x_0) 0 then x_1 else m) m 1).
    assert (Hr : runs (bis_cond f eps) (bis_body f 0) 1 (bis_init x_0 x_1, t)
                      (st1, (t ++ [CallF x_0]) ++ [Iter] ++
                            [CallF x_0; CallF x_1; CallF m; CallF x_0])).
    { apply (runs_S _ _ 0 _ (bis_init x_0 x_1) t (t ++ [CallF x_0])).
      - apply runs_O.
      - rewrite bis_cond_eq; simpl.
        apply Qgtb_true in Hc0; rewrite Hc0; reflexivity.
      - rewrite bis_body_eq; cbv zeta; simpl.
        apply Qgtb_false in H0; rewrite H0.
        rewrite <- !app_assoc; reflexivity. }
    eexists.
    apply (bis_cap_exceeded f eps 0 x_0 x_1 t 1 st1 _ H0 Hr);
      simpl; [exact Hc1 | lia].
Qed.

(** Both solvers on [x**2 - 2], and bisection on [f(x) = x], with
    [max_its = 0]. *)
Lemma low_cap_raises_ConvergenceError_witness :
  (exists t', newton_raphson sq2 dsq2 (1 # 100) 0 1 [] = (Raise ConvergenceError, t'))
  /\ (exists t', bisection sq2 (1 # 100) 0 0 2 [] = (Raise ConvergenceError, t'))
  /\ (exists t', newton_raphson sq2 dsq2 (1 # 100) 0 2 [] = (Raise ConvergenceError, t'))
  /\ (exists t', bisection ident (1 # 100) 0 (-1) 3 [] = (Raise ConvergenceError, t')).
Proof.
  split; [| split; [| split]].
  - apply (proj1 (low_cap_raises_ConvergenceError sq2 dsq2 (1 # 100))
             0%Z 1 [] (3 # 2) [CallF 1; CallDf 1] 0%nat
             (mk_nr 1 (3 # 2) 1) [CallF 1; CallDf 1]).
    + vm_compute; reflexivity.
    + apply runs_O.
    + vm_compute; reflexivity.
    + simpl; lia.
    + vm_compute; discriminate.
  - apply (proj1 (proj2 (low_cap_raises_ConvergenceError sq2 dsq2 (1 # 100)))
             0%Z 0 2 [] 1%nat (mk_bis (2 # 2) 2 (2 # 2) 1)
             [CallF 0; Iter; CallF 0; CallF 2; CallF (2 # 2); CallF 0]).
    + vm_compute; discriminate.
    + apply (runs_S _ _ 0 _ (bis_init 0 2) [] [CallF 0]);
        [apply runs_O | vm_compute; reflexivity | vm_compute; reflexivity].
    + vm_compute; reflexivity.
    + simpl; lia.
  - apply (proj1 (proj2 (proj2 (low_cap_raises_ConvergenceError sq2 dsq2 (1 # 100))))
             2 []).
    + vm_compute; discriminate.
    + vm_compute; reflexivity.
    + vm_compute; discriminate.
  - apply (proj2 (proj2 (proj2 (low_cap_raises_ConvergenceError ident one (1 # 100))))
             (-1) 3 []).
    + vm_compute; discriminate.
    + vm_compute; reflexivity.
    + vm_compute; reflexivity.
Defined.

(** C8, counterexample: for [f(x) = x - 1], [df(x) = 1] and [x_0 = 1] the
    first update does not move, the loop is not entered, and the call has
    evaluated [f] once and [df] once, not twice. *)
Lemma newton_raphson_immediate_evaluates_once :
  newton_raphson shift1 one (1 # 100) 20 1 [] = (Return 1, [CallF 1; CallDf 1]) /\
  count is_CallF [CallF 1; CallDf 1] = 1%nat /\
  count is_CallDf [CallF 1; CallDf 1] = 1%nat /\
  ~ (2 <= count is_CallF [CallF 1; CallDf 1])%nat.
Proof.
  repeat split; vm_compute; lia.
Qed.

(** C8 (as amended): [newton_raphson] performs one Newton update before any
    test, so every call begins by evaluating [f(x_0)] and [df(x_0)] and
    evaluates each of [f], [df] at least once; it evaluates each at least
    twice when that first update is defined and its step is above [eps],
    and exactly once (nothing more is done) when the update divides by
    zero or its step is within [eps]. *)
Theorem newton_raphson_evaluations f df eps max_its x_0 t :
  exists o d,
    newton_raphson f df eps max_its x_0 t =
      (o, t ++ [CallF x_0; CallDf x_0] ++ d) /\
    (1 <= count is_CallF ([CallF x_0; CallDf x_0] ++ d))%nat /\
    (1 <= count is_CallDf ([CallF x_0; CallDf x_0] ++ d))%nat /\
    (~ df x_0 == 0 -> eps < Qabs (x_0 - (x_0 - f x_0 / df x_0)) ->
     (2 <= count is_CallF ([CallF x_0; CallDf x_0] ++ d))%nat /\
     (2 <= count is_CallDf ([CallF x_0; CallDf x_0] ++ d))%nat) /\
    (df x_0 == 0 \/ Qabs (x_0 - (x_0 - f x_0 / df x_0)) <= eps -> d = []).
Proof.
  unfold newton_raphson, newton_raphson_fuel, bind.
  rewrite newton_update_eq.
  destruct (Qeq_bool (df x_0) 0) eqn:Hd.
  { exists (Raise ZeroDivisionError), [].
    apply Qeq_bool_iff in Hd.
    repeat split; try (unfold count; simpl; lia); contradiction. }
  apply Qeq_bool_false in Hd.
  unfold its_fuel; rewrite while_unfold.
  unfold nr_cond at 1, ret; simpl nr_x; simpl nr_new_x.
  set (x1 := x_0 - f x_0 / df x_0).
  destruct (Qgtb (Qabs (x_0 - x1)) eps) eqn:Hc.
  - assert (Hex : exists o d',
               match nr_body f df max_its (mk_nr x_0 x1 1)
                       ((t ++ [CallF x_0; CallDf x_0]) ++ [Iter]) with
               | (Return s', t2) =>
                   while (nr_cond eps) (nr_body f df max_its)
                         (Datatypes.S (Z.to_nat max_its)) s' t2
               | (Raise e, t2) => (Raise e, t2)
               | (OutOfFuel, t2) => (OutOfFuel, t2)
               end = (o, ((t ++ [CallF x_0; CallDf x_0]) ++ [Iter])
                           ++ [CallF x1; CallDf x1] ++ d')).
    { rewrite nr_body_eq; cbv zeta; simpl nr_new_x; simpl nr_current_its.
      destruct (Qeq_bool (df x1) 0);
        [exists (Raise ZeroDivisionError), []; rewrite app_nil_r; reflexivity |].
      destruct (1 >? max_its)%Z eqn:Hm;
        [exists (Raise ConvergenceError), []; rewrite app_nil_r; reflexivity |].
      rewrite Z.gtb_ltb, Z.ltb_ge in Hm.
      edestruct (nr_loop_terminates f df eps max_its (Datatypes.S (Z.to_nat max_its)))
        as (o & d' & -> & _); [unfold nr_mu; simpl; lia |].
      exists o, d'; rewrite <- !app_assoc; reflexivity. }
    destruct Hex as (o & d' & ->).
    exists (match o with
            | Return s => Return (nr_new_x s) | Raise e => Raise e
            | OutOfFuel => OutOfFuel end),
           ([Iter] ++ [CallF x1; CallDf x1] ++ d').
    split; [destruct o; rewrite <- !app_assoc; reflexivity |].
    repeat split; try (rewrite !count_app; unfold count; simpl; lia).
    intros [Hz | Hle]; [contradiction |].
    apply Qgtb_false in Hle; fold x1 in Hle; congruence.
  - exists (Return x1), []; rewrite app_nil_r.
    apply Qgtb_false in Hc.
    repeat split; try (unfold count; simpl; lia);
      match goal with
      | Hlt : eps < _ |- _ => exfalso; exact (Qlt_irrefl _ (Qle_lt_trans _ _ _ Hc Hlt))
      end.
Qed.

(** Newton-Raphson on [x**2 - 2] from [1]: the first step is [1/2]. *)
Lemma newton_raphson_evaluations_witness :
  exists o d,
    newton_raphson sq2 dsq2 (1 # 100) 20 1 [] = (o, [] ++ [CallF 1; CallDf 1] ++ d) /\
    (2 <= count is_CallF ([CallF 1; CallDf 1] ++ d))%nat /\
    (2 <= count is_CallDf ([CallF 1; CallDf 1] ++ d))%nat.
Proof.
  destruct (newton_raphson_evaluations sq2 dsq2 (1 # 100) 20 1 [])
    as (o & d & Hn & _ & _ & H2 & _).
  exists o, d; split; [exact Hn |].
  apply H2; [vm_compute; discriminate | vm_compute; reflexivity].
Defined.

(** C10: [newton_raphson] and [bisection] end on every input, with a value
    or with an exception, however much fuel above [its_fuel max_its] the
    model is given; their loop bodies are entered at most
    [max(max_its, 0) + 2] times, which is [max_its + 2] for a cap
    [max_its >= 0]. *)
Theorem solvers_terminate_within_cap f df eps max_its x_0 x_1 t :
  (exists o d,
      newton_raphson f df eps max_its x_0 t = (o, t ++ d) /\
      ((exists r, o = Return r) \/ (exists e, o = Raise e)) /\
      (forall k, (its_fuel max_its <= k)%nat ->
                 newton_raphson_fuel f df eps max_its k x_0 t = (o, t ++ d)) /\
      (count is_Iter d <= Z.to_nat max_its + 2)%nat /\
      ((0 <= max_its)%Z -> (Z.of_nat (count is_Iter d) <= max_its + 2)%Z))
  /\
  (exists o d,
      bisection f eps max_its x_0 x_1 t = (o, t ++ d) /\
      ((exists r, o = Return r) \/ (exists e, o = Raise e)) /\
      (forall k, (its_fuel max_its <= k)%nat ->
                 bisection_fuel f eps max_its k x_0 x_1 t = (o, t ++ d)) /\
      (count is_Iter d <= Z.to_nat max_its + 2)%nat /\
      ((0 <= max_its)%Z -> (Z.of_nat (count is_Iter d) <= max_its + 2)%Z)).
Proof.
  split.
  - destruct (newton_raphson_total f df eps max_its x_0 t) as (o & d & Hn & Ho & Hc & Hk).
    exists o, d; split; [exact Hn |].
    split; [destruct o as [r | e |]; [left; eauto | right; eauto | congruence] |].
    split; [exact Hk |]. split; lia.
  - destruct (bisection_total f eps max_its x_0 x_1 t) as (o & d & Hb & Ho & Hc & Hk).
    exists o, d; split; [exact Hb |].
    split; [destruct o as [r | e |]; [left; eauto | right; eauto | congruence] |].
    split; [exact Hk |]. split; lia.
Qed.

(** Both solvers on [x**2 - 2] with the default cap [max_its = 20]. *)
Lemma solvers_terminate_within_cap_witness :
  (exists o d, newton_raphson sq2 dsq2 (1 # 100) 20 1 [] = (o, [] ++ d) /\
               (Z.of_nat (count is_Iter d) <= 20 + 2)%Z)
  /\ (exists o d, bisection sq2 (1 # 100) 20 1 2 [] = (o, [] ++ d) /\
                  (Z.of_nat (count is_Iter d) <= 20 + 2)%Z).
Proof.
  destruct (solvers_terminate_within_cap sq2 dsq2 (1 # 100) 20 1 2 [])
    as [(o & d & Hn & _ & _ & _ & Hc) (o' & d' & Hb & _ & _ & _ & Hc')].
  split.
  - exists o, d; split; [exact Hn | apply Hc; lia].
  - exists o', d'; split; [exact Hb | apply Hc'; lia].
Defined.

(** ** Further properties of the three functions *)

(** A loop that raises has run some completed iterations and then raised
    from its test or from its body. *)
Lemma while_Raise_runs {S : Type} (cond : S -> M bool) (body : S -> M S) k :
  forall s t e t', while cond body k s t = (Raise e, t') ->
  exists n s1 t1,
    runs cond body n (s, t) (s1, t1) /\
    (cond s1 t1 = (Raise e, t') \/
     exists tc, cond s1 t1 = (Return true, tc) /\
                body s1 (tc ++ [Iter]) = (Raise e, t')).
Proof.
  induction k as [| k IH]; intros s t e t' H.
  - discriminate H.
  - rewrite while_unfold in H.
    destruct (cond s t) as [[[|] | e0 |] t1] eqn:Hc; try discriminate H.
    + destruct (body s (t1 ++ [Iter])) as [[s1 | e1 |] t2] eqn:Hb; try discriminate H.
      * destruct (IH _ _ _ _ H) as (n & s2 & t3 & Hr & Hor).
        exists (Datatypes.S n), s2, t3; split; [| exact Hor].
        eapply runs_head; eauto.
      * inversion H; subst.
        exists 0%nat, s, t; split; [apply runs_O | right].
        exists t1; split; [exact Hc | exact Hb].
    + inversion H; subst.
      exists 0%nat, s, t; split; [apply runs_O | left; exact Hc].
Qed.

(** When the callbacks [f] and [df] themselves always return (they are
    total functions here, and raise nothing of their own), the only
    exceptions [newton_raphson] raises are [ConvergenceError] and
    [ZeroDivisionError], and the only ones [bisection] raises are
    [ValueError] and [ConvergenceError]. *)
Theorem solver_exceptions f df eps max_its x_0 x_1 t e t' :
  (newton_raphson f df eps max_its x_0 t = (Raise e, t') ->
   e = ConvergenceError \/ e = ZeroDivisionError)
  /\
  (bisection f eps max_its x_0 x_1 t = (Raise e, t') ->
   e = ValueError \/ e = ConvergenceError).
Proof.
  split.
  - unfold newton_raphson, newton_raphson_fuel, bind.
    rewrite newton_update_eq.
    destruct (Qeq_bool (df x_0) 0); [intros [= <- _]; right; reflexivity |].
    destruct (while _ _ _ _ _) as [[s | e0 |] t1] eqn:Hw; try discriminate.
    intros [= -> ->].
    apply while_Raise_runs in Hw.
    destruct Hw as (n & s1 & t2 & _ & [Hc | (tc & _ & Hb)]); [discriminate Hc |].
    rewrite nr_body_eq in Hb; cbv zeta in Hb.
    destruct (Qeq_bool (df (nr_new_x s1)) 0); [inversion Hb; right; reflexivity |].
    destruct (nr_current_its s1 >? max_its)%Z; [inversion Hb; left; reflexivity |].
    discriminate Hb.
  - unfold bisection, bisection_fuel, bind.
    destruct (while _ _ _ _ _) as [[s | e0 |] t1] eqn:Hw; try discriminate.
    intros [= -> ->].
    apply while_Raise_runs in Hw.
    destruct Hw as (n & s1 & t2 & _ & [Hc | (tc & _ & Hb)]);
      [rewrite bis_cond_eq in Hc; discriminate Hc |].
    rewrite bis_body_eq in Hb; cbv zeta in Hb.
    destruct (Qgtb (f (bis_x_l s1) * f (bis_x_r s1)) 0);
      [inversion Hb; left; reflexivity |].
    destruct (bis_current_its s1 >? max_its)%Z; [inversion Hb; right; reflexivity |].
    discriminate Hb.
Qed.

(** Newton-Raphson on [x**2 - 2] from [0] divides by [df(0) = 0]; bisection
    of [x - 1] on [[2, 3]] has no sign change. *)
Lemma solver_exceptions_witness :
  (ZeroDivisionError = ConvergenceError \/ ZeroDivisionError = ZeroDivisionError)
  /\ (ValueError = ValueError \/ ValueError = ConvergenceError).
Proof.
  split.
  - apply (proj1 (solver_exceptions sq2 dsq2 (1 # 100) 20 0 0 [] ZeroDivisionError
                    [CallF 0; CallDf 0])).
    vm_compute; reflexivity.
  - apply (proj2 (solver_exceptions shift1 one (1 # 10) 20 2 3 [] ValueError
                    [CallF 2; Iter; CallF 2; CallF 3])).
    vm_compute; reflexivity.
Defined.

(** [solve] only handles [ConvergenceError]: any other exception of the
    inner [newton_raphson] call leaves [solve] as it is, and [bisection] is
    not run.  This is what happens when the derivative vanishes at [x_0]. *)
Theorem solve_does_not_fall_back_on_other_errors
    f df x_0 x_1 eps max_its_n max_its_b t :
  (forall e t1,
      e <> ConvergenceError ->
      newton_raphson f df eps max_its_n x_0 t = (Raise e, t1) ->
      solve f df x_0 x_1 eps max_its_n max_its_b t = (Raise e, t1))
  /\
  (df x_0 == 0 ->
   solve f df x_0 x_1 eps max_its_n max_its_b t =
   (Raise ZeroDivisionError, t ++ [CallF x_0; CallDf x_0])).
Proof.
  assert (H : forall e t1,
             e <> ConvergenceError ->
             newton_raphson f df eps max_its_n x_0 t = (Raise e, t1) ->
             solve f df x_0 x_1 eps max_its_n max_its_b t = (Raise e, t1)).
  { intros e t1 He Hn.
    unfold solve, try_except_ConvergenceError.
    rewrite (bind_Raise _ _ _ _ _ Hn).
    destruct e; [congruence | reflexivity | reflexivity]. }
  split; [exact H |].
  intros Hd; apply H; [discriminate |].
  unfold newton_raphson, newton_raphson_fuel, bind.
  rewrite newton_update_eq.
  apply Qeq_bool_iff in Hd; rewrite Hd; reflexivity.
Qed.

(** [x**2 - 2] from [x_0 = 0], where [df(0) = 0]. *)
Lemma solve_does_not_fall_back_on_other_errors_witness :
  solve sq2 dsq2 0 2 (1 # 100) 20 20 [] =
    (Raise ZeroDivisionError, [CallF 0; CallDf 0])
  /\ solve sq2 dsq2 0 2 (1 # 100) 0 0 [] =
     (Raise ZeroDivisionError, [] ++ [CallF 0; CallDf 0]).
Proof.
  split.
  - apply (proj1 (solve_does_not_fall_back_on_other_errors sq2 dsq2 0 2 (1 # 100) 20 20 [])).
    + discriminate.
    + vm_compute; reflexivity.
  - apply (proj2 (solve_does_not_fall_back_on_other_errors sq2 dsq2 0 2 (1 # 100) 0 0 [])).
    vm_compute; reflexivity.
Defined.

(** *** The bracket of bisection *)

(** One completed iteration of the bisection loop, spelled out. *)
Lemma bis_step_inv f eps max_its s1 t1 tc s2 t2 :
  bis_cond f eps s1 t1 = (Return true, tc) ->
  bis_body f max_its s1 (tc ++ [Iter]) = (Return s2, t2) ->
  let m := (bis_x_r s1 + bis_x_l s1) / 2 in
  eps < Qabs (f (bis_new_x s1)) /\
  f (bis_x_l s1) * f (bis_x_r s1) <= 0 /\
  (bis_current_its s1 <= max_its)%Z /\
  bis_new_x s2 = m /\
  bis_current_its s2 = (bis_current_its s1 + 1)%Z /\
  ((bis_x_l s2 = m /\ bis_x_r s2 = bis_x_r s1) \/
   (bis_x_l s2 = bis_x_l s1 /\ bis_x_r s2 = m)) /\
  t2 = t1 ++ [CallF (bis_new_x s1); Iter; CallF (bis_x_l s1); CallF (bis_x_r s1);
              CallF m; CallF (bis_x_l s1)].
Proof.
  intros Hc Hb m.
  rewrite bis_cond_eq in Hc; inversion Hc as [[Hg Ht]]; subst tc.
  rewrite bis_body_eq in Hb; cbv zeta in Hb.
  destruct (Qgtb (f (bis_x_l s1) * f (bis_x_r s1)) 0) eqn:Hs; [discriminate |].
  destruct (bis_current_its s1 >? max_its)%Z eqn:Hi; [discriminate |].
  inversion Hb; subst s2 t2; clear Hb; simpl.
  apply Qgtb_true in Hg; apply Qgtb_false in Hs.
  rewrite Z.gtb_ltb, Z.ltb_ge in Hi.
  repeat split; try assumption.
  - fold m; destruct (Qgtb (f m * f (bis_x_l s1)) 0); [left | right]; split; reflexivity.
  - rewrite <- !app_assoc; reflexivity.
Qed.

Lemma Qmid_between a b : a <= b -> a <= (b + a) / 2 /\ (b + a) / 2 <= b.
Proof.
  intros H; unfold Qdiv; change (/ 2) with (1 # 2); split; lra.
Qed.

Lemma Qmid_between_rev a b : b <= a -> b <= (b + a) / 2 /\ (b + a) / 2 <= a.
Proof.
  intros H; unfold Qdiv; change (/ 2) with (1 # 2); split; lra.
Qed.

(** From [x_l <= x_r] the bounds only move inwards and stay in order, and
    [new_x] stays one of them. *)
Lemma bis_runs_ordered f eps max_its n c c' :
  runs (bis_cond f eps) (bis_body f max_its) n c c' ->
  bis_x_l (fst c) <= bis_x_r (fst c) ->
  bis_new_x (fst c) = bis_x_l (fst c) \/ bis_new_x (fst c) = bis_x_r (fst c) ->
  bis_x_l (fst c) <= bis_x_l (fst c') /\
  bis_x_l (fst c') <= bis_x_r (fst c') /\
  bis_x_r (fst c') <= bis_x_r (fst c) /\
  (bis_new_x (fst c') = bis_x_l (fst c') \/ bis_new_x (fst c') = bis_x_r (fst c')).
Proof.
  induction 1 as [c | n c s1 t1 tc s2 t2 Hr IH Hc Hb]; intros Hle Hnew.
  - repeat split; try apply Qle_refl; assumption.
  - destruct (IH Hle Hnew) as (H1 & H2 & H3 & _); simpl fst in *.
    destruct (bis_step_inv _ _ _ _ _ _ _ _ Hc Hb) as (_ & _ & _ & Hm & _ & Hup & _).
    destruct (Qmid_between _ _ H2) as [Ha Hb'].
    destruct Hup as [[Hl Hr'] | [Hl Hr']]; rewrite Hl, Hr', Hm;
      remember ((bis_x_r s1 + bis_x_l s1) / 2) as m.
    + repeat split; [lra | lra | lra | left; reflexivity].
    + repeat split; [lra | lra | lra | right; reflexivity].
Qed.

(** The same for a bracket given with its ends in the other order. *)
Lemma bis_runs_ordered_rev f eps max_its n c c' :
  runs (bis_cond f eps) (bis_body f max_its) n c c' ->
  bis_x_r (fst c) <= bis_x_l (fst c) ->
  bis_new_x (fst c) = bis_x_l (fst c) \/ bis_new_x (fst c) = bis_x_r (fst c) ->
  bis_x_r (fst c) <= bis_x_r (fst c') /\
  bis_x_r (fst c') <= bis_x_l (fst c') /\
  bis_x_l (fst c') <= bis_x_l (fst c) /\
  (bis_new_x (fst c') = bis_x_l (fst c') \/ bis_new_x (fst c') = bis_x_r (fst c')).
Proof.
  induction 1 as [c | n c s1 t1 tc s2 t2 Hr IH Hc Hb]; intros Hle Hnew.
  - repeat split; try apply Qle_refl; assumption.
  - destruct (IH Hle Hnew) as (H1 & H2 & H3 & _); simpl fst in *.
    destruct (bis_step_inv _ _ _ _ _ _ _ _ Hc Hb) as (_ & _ & _ & Hm & _ & Hup & _).
    destruct (Qmid_between_rev _ _ H2) as [Ha Hb'].
    destruct Hup as [[Hl Hr'] | [Hl Hr']]; rewrite Hl, Hr', Hm;
      remember ((bis_x_r s1 + bis_x_l s1) / 2) as m.
    + repeat split; [lra | lra | lra | left; reflexivity].
    + repeat split; [lra | lra | lra | right; reflexivity].
Qed.


(** The value [bisection] returns lies between the two end points it was
    given, whichever way round they were given. *)
Theorem bisection_result_in_interval f eps max_its x_0 x_1 t x t' :
  bisection f eps max_its x_0 x_1 t = (Return x, t') ->
  (x_0 <= x_1 -> x_0 <= x /\ x <= x_1) /\
  (x_1 <= x_0 -> x_1 <= x /\ x <= x_0).
Proof.
  unfold bisection, bisection_fuel; intros H.
  apply bind_inv_Return in H; destruct H as (st & t1 & Hw & Hr).
  inversion Hr; subst; clear Hr.
  apply while_Return_runs in Hw; destruct Hw as (n & t0 & Hr & _ & _).
  split; intros Hle.
  - destruct (bis_runs_ordered _ _ _ _ _ _ Hr Hle (or_introl eq_refl))
      as (H1 & H2 & H3 & Hn); simpl in H1, H2, H3, Hn.
    destruct Hn as [-> | ->]; split; lra.
  - destruct (bis_runs_ordered_rev _ _ _ _ _ _ Hr Hle (or_introl eq_refl))
      as (H1 & H2 & H3 & Hn); simpl in H1, H2, H3, Hn.
    destruct Hn as [-> | ->]; split; lra.
Qed.

(** Bisection of [x**2 - 2] on [[0, 2]] and on [[2, 0]]. *)
Lemma bisection_result_in_interval_witness :
  (0 <= 1472 # 1024 /\ 1472 # 1024 <= 2) /\
  (0 <= 1472 # 1024 /\ 1472 # 1024 <= 2).
Proof.
  split.
  - apply (proj1 (bisection_result_in_interval sq2 (1 # 10) 20 0 2 [] (1472 # 1024)
                    (snd (bisection sq2 (1 # 10) 20 0 2 [])) eq_refl)).
    vm_compute; discriminate.
  - apply (proj2 (bisection_result_in_interval sq2 (1 # 10) 20 2 0 [] (1472 # 1024)
                    (snd (bisection sq2 (1 # 10) 20 2 0 [])) eq_refl)).
    vm_compute; discriminate.
Defined.

(** A run of at least one iteration starts with a test that holds and a
    body that runs to its end. *)
Lemma runs_first {S : Type} (cond : S -> M bool) (body : S -> M S) n c c' :
  runs cond body n c c' ->
  (n = 0%nat /\ c' = c) \/
  (exists tc s t, cond (fst c) (snd c) = (Return true, tc) /\
                  body (fst c) (tc ++ [Iter]) = (Return s, t)).
Proof.
  induction 1 as [c | n c s1 t1 tc s2 t2 Hr IH Hc Hb]; [left; split; reflexivity |].
  right; destruct IH as [[-> Heq] | IH]; [| exact IH].
  inversion Heq; subst; simpl.
  exists tc, s2, t2; split; assumption.
Qed.

(** [bisection] raises [ValueError] exactly when the tolerance is not met
    at [x_0] and [f(x_0) * f(x_1) > 0]: the sign test can only fail in the
    first iteration, and a bracket that passes it is never rejected
    later. *)
Theorem bisection_ValueError_iff f eps max_its x_0 x_1 t :
  (exists t', bisection f eps max_its x_0 x_1 t = (Raise ValueError, t')) <->
  (eps < Qabs (f x_0) /\ 0 < f x_0 * f x_1).
Proof.
  split.
  - intros [t' H].
    unfold bisection, bisection_fuel, bind in H.
    destruct (while _ _ _ _ _) as [[s | e0 |] t1] eqn:Hw; try discriminate.
    inversion H; subst e0 t1; clear H.
    apply while_Raise_runs in Hw.
    destruct Hw as (n & s1 & t2 & Hr & [Hc | (tc & Hc & Hb)]);
      [rewrite bis_cond_eq in Hc; discriminate Hc |].
    assert (Hbad : 0 < f (bis_x_l s1) * f (bis_x_r s1)).
    { rewrite bis_body_eq in Hb; cbv zeta in Hb.
      destruct (Qgtb (f (bis_x_l s1) * f (bis_x_r s1)) 0) eqn:Hs;
        [apply Qgtb_true; exact Hs |].
      destruct (bis_current_its s1 >? max_its)%Z; discriminate Hb. }
    assert (H0 : 0 < f x_0 * f x_1).
    { destruct (Qlt_le_dec 0 (f x_0 * f x_1)) as [Hlt | Hle]; [exact Hlt |].
      pose proof (bis_runs_bracket _ _ _ _ _ _ _ _ _ Hle Hr) as Hinv.
      exfalso; exact (Qlt_irrefl _ (Qlt_le_trans _ _ _ Hbad Hinv)). }
    split; [| exact H0].
    destruct (runs_first _ _ _ _ _ Hr) as [[_ Heq] | (tc0 & s & t0 & Hc0 & Hb0)].
    + inversion Heq; subst s1 t2.
      rewrite bis_cond_eq in Hc; injection Hc as Hg _.
      apply Qgtb_true; exact Hg.
    + simpl in Hc0.
      rewrite bis_cond_eq in Hc0; injection Hc0 as Hg _.
      apply Qgtb_true; exact Hg.
  - intros [Hc Hs].
    apply Qgtb_true in Hc; apply Qgtb_true in Hs.
    eexists.
    unfold bisection, bisection_fuel, its_fuel, bind.
    rewrite while_unfold, bis_cond_eq; simpl bis_new_x; rewrite Hc.
    rewrite bis_body_eq; cbv zeta; simpl bis_x_l; simpl bis_x_r; rewrite Hs.
    reflexivity.
Qed.

(** [x - 1] is positive at both ends of [[2, 3]]. *)
Lemma bisection_ValueError_iff_witness :
  exists t', bisection shift1 (1 # 10) 20 2 3 [] = (Raise ValueError, t').
Proof.
  apply (proj2 (bisection_ValueError_iff shift1 (1 # 10) 20 2 3 [])).
  split; vm_compute; reflexivity.
Defined.

(** *** The cost of a call *)

(** What [n] completed bisection iterations add to the trace and to the
    counter. *)
Lemma bis_runs_counts f eps max_its n c c' :
  runs (bis_cond f eps) (bis_body f max_its) n c c' ->
  exists d,
    snd c' = snd c ++ d /\
    count is_Iter d = n /\
    count is_CallF d = (5 * n)%nat /\
    count is_CallDf d = 0%nat /\
    bis_current_its (fst c') = (bis_current_its (fst c) + Z.of_nat n)%Z /\
    (n = 0%nat \/ (bis_current_its (fst c') <= max_its + 1)%Z).
Proof.
  induction 1 as [c | n c s1 t1 tc s2 t2 Hr IH Hc Hb].
  - exists []; rewrite app_nil_r.
    repeat split; [lia | left; reflexivity].
  - destruct IH as (d & Ht & Hi & Hf & Hd & Hits & _); simpl fst in *; simpl snd in *.
    destruct (bis_step_inv _ _ _ _ _ _ _ _ Hc Hb) as (_ & _ & Hcap & _ & Hup & _ & Ht2).
    eexists; split; [rewrite Ht2, Ht, <- app_assoc; reflexivity |].
    rewrite !count_app, Hi, Hf, Hd; unfold count; simpl.
    repeat split; try lia.
Qed.

(** A call of [bisection] that returns after [n] iterations has evaluated
    [f] exactly [5 * n + 1] times and [df] never, and [n] is [0] or at most
    [max_its + 1]. *)
Theorem bisection_return_cost f eps max_its x_0 x_1 t x t' :
  bisection f eps max_its x_0 x_1 t = (Return x, t') ->
  exists d,
    t' = t ++ d /\
    count is_CallF d = (5 * count is_Iter d + 1)%nat /\
    count is_CallDf d = 0%nat /\
    (count is_Iter d = 0%nat \/ (Z.of_nat (count is_Iter d) <= max_its + 1)%Z).
Proof.
  unfold bisection, bisection_fuel; intros H.
  apply bind_inv_Return in H; destruct H as (st & t1 & Hw & Hr).
  inversion Hr; subst; clear Hr.
  apply while_Return_runs in Hw; destruct Hw as (n & t0 & Hr & Hc & _).
  destruct (bis_runs_counts _ _ _ _ _ _ Hr) as (d & Ht & Hi & Hf & Hd & Hits & Hcap).
  simpl in Ht, Hits, Hcap; subst t0.
  rewrite bis_cond_eq in Hc; injection Hc as _ <-.
  exists (d ++ [CallF (bis_new_x st)]); split; [rewrite app_assoc; reflexivity |].
  rewrite !count_app, Hi, Hf, Hd; unfold count; simpl.
  repeat split; try lia.
Qed.

(** Bisection of [x**2 - 2] on [[0, 2]] with [eps = 1/10]: five iterations,
    twenty-six evaluations. *)
Lemma bisection_return_cost_witness :
  exists d,
    snd (bisection sq2 (1 # 10) 20 0 2 []) = [] ++ d /\
    count is_CallF d = (5 * count is_Iter d + 1)%nat /\
    count is_CallDf d = 0%nat /\
    (count is_Iter d = 0%nat \/ (Z.of_nat (count is_Iter d) <= 20 + 1)%Z).
Proof.
  apply (bisection_return_cost sq2 (1 # 10) 20 0 2 [] (1472 # 1024)).
  vm_compute; reflexivity.
Defined.

(** One completed iteration of the Newton loop, spelled out. *)
Lemma nr_step_inv f df eps max_its s1 t1 tc s2 t2 :
  nr_cond eps s1 t1 = (Return true, tc) ->
  nr_body f df max_its s1 (tc ++ [Iter]) = (Return s2, t2) ->
  let x := nr_new_x s1 in
  eps < Qabs (nr_x s1 - nr_new_x s1) /\
  ~ df x == 0 /\
  (nr_current_its s1 <= max_its)%Z /\
  s2 = mk_nr x (x - f x / df x) (nr_current_its s1 + 1) /\
  t2 = t1 ++ [Iter; CallF x; CallDf x].
Proof.
  intros Hc Hb x.
  unfold nr_cond, ret in Hc; injection Hc as Hg <-.
  rewrite nr_body_eq in Hb; cbv zeta in Hb.
  destruct (Qeq_bool (df (nr_new_x s1)) 0) eqn:Hd; [discriminate |].
  destruct (nr_current_its s1 >? max_its)%Z eqn:Hi; [discriminate |].
  injection Hb as <- <-.
  apply Qgtb_true in Hg; apply Qeq_bool_false in Hd.
  rewrite Z.gtb_ltb, Z.ltb_ge in Hi.
  repeat split; try assumption.
  rewrite <- app_assoc; reflexivity.
Qed.

(** What [n] completed Newton iterations add to the trace and to the
    counter. *)
Lemma nr_runs_counts f df eps max_its n c c' :
  runs (nr_cond eps) (nr_body f df max_its) n c c' ->
  exists d,
    snd c' = snd c ++ d /\
    count is_Iter d = n /\
    count is_CallF d = n /\
    count is_CallDf d = n /\
    nr_current_its (fst c') = (nr_current_its (fst c) + Z.of_nat n)%Z /\
    (n = 0%nat \/ (nr_current_its (fst c') <= max_its + 1)%Z).
Proof.
  induction 1 as [c | n c s1 t1 tc s2 t2 Hr IH Hc Hb].
  - exists []; rewrite app_nil_r.
    repeat split; [lia | left; reflexivity].
  - destruct IH as (d & Ht & Hi & Hf & Hd & Hits & _); simpl fst in *; simpl snd in *.
    destruct (nr_step_inv _ _ _ _ _ _ _ _ _ Hc Hb) as (_ & _ & Hcap & -> & Ht2).
    eexists; split; [rewrite Ht2, Ht, <- app_assoc; reflexivity |].
    rewrite !count_app, Hi, Hf, Hd; unfold count; simpl.
    repeat split; try lia.
Qed.

(** Whatever its outcome, a call of [newton_raphson] evaluates [f] and [df]
    equally often, once more than it enters the loop body, hence at most
    [max(max_its, 0) + 2] times each; when it returns, it has entered the
    loop body at most [max_its] times (or not at all). *)
Theorem newton_raphson_cost f df eps max_its x_0 t :
  exists o d,
    newton_raphson f df eps max_its x_0 t = (o, t ++ d) /\
    count is_CallF d = (count is_Iter d + 1)%nat /\
    count is_CallDf d = (count is_Iter d + 1)%nat /\
    (count is_CallF d <= Z.to_nat max_its + 2)%nat /\
    (forall r, o = Return r ->
               count is_Iter d = 0%nat \/ (Z.of_nat (count is_Iter d) <= max_its)%Z).
Proof.
  unfold newton_raphson, newton_raphson_fuel, bind.
  rewrite newton_update_eq.
  destruct (Qeq_bool (df x_0) 0).
  { exists (Raise ZeroDivisionError), [CallF x_0; CallDf x_0].
    unfold count; simpl; repeat split; try lia; discriminate. }
  set (st0 := mk_nr x_0 (x_0 - f x_0 / df x_0) 1).
  set (t0 := t ++ [CallF x_0; CallDf x_0]).
  destruct (while _ _ _ st0 t0) as [[s | e |] t1] eqn:Hw.
  - apply while_Return_runs in Hw; destruct Hw as (n & t2 & Hr & Hc & _).
    unfold nr_cond, ret in Hc; injection Hc as _ <-.
    destruct (nr_runs_counts _ _ _ _ _ _ _ Hr) as (d & Ht & Hi & Hf & Hd & Hits & Hcap).
    cbn [fst snd] in Ht, Hits, Hcap; subst t2.
    change (nr_current_its st0) with 1%Z in Hits.
    exists (Return (nr_new_x s)), ([CallF x_0; CallDf x_0] ++ d).
    split; [unfold t0; rewrite <- app_assoc; reflexivity |].
    rewrite !count_app, Hi, Hf, Hd; unfold count; simpl.
    repeat split; try lia.
  - apply while_Raise_runs in Hw.
    destruct Hw as (n & s1 & t2 & Hr & [Hc | (tc & Hc & Hb)]); [discriminate Hc |].
    unfold nr_cond, ret in Hc; injection Hc as _ <-.
    destruct (nr_runs_counts _ _ _ _ _ _ _ Hr) as (d & Ht & Hi & Hf & Hd & Hits & Hcap).
    cbn [fst snd] in Ht, Hits, Hcap; subst t2.
    change (nr_current_its st0) with 1%Z in Hits.
    assert (Ht1 : t1 = ((t0 ++ d) ++ [Iter]) ++ [CallF (nr_new_x s1); CallDf (nr_new_x s1)]).
    { rewrite nr_body_eq in Hb; cbv zeta in Hb.
      destruct (Qeq_bool (df (nr_new_x s1)) 0); [injection Hb as _ <-; reflexivity |].
      destruct (nr_current_its s1 >? max_its)%Z; [injection Hb as _ <-; reflexivity |].
      discriminate Hb. }
    exists (Raise e),
           ([CallF x_0; CallDf x_0] ++ d ++ [Iter] ++
            [CallF (nr_new_x s1); CallDf (nr_new_x s1)]).
    split; [rewrite Ht1; unfold t0; rewrite <- !app_assoc; reflexivity |].
    rewrite !count_app, Hi, Hf, Hd; unfold count; simpl.
    repeat split; try lia; discriminate.
  - exfalso.
    destruct (nr_loop_terminates f df eps max_its (its_fuel max_its) st0 t0)
      as (o & d & Hw' & Ho & _); [unfold nr_mu, its_fuel; simpl; lia |].
    rewrite Hw in Hw'; injection Hw' as <- _; congruence.
Qed.

(** Newton-Raphson on [x**2 - 2] from [1] returns after two iterations. *)
Lemma newton_raphson_cost_witness :
  exists o d,
    newton_raphson sq2 dsq2 (1 # 100) 20 1 [] = (o, [] ++ d) /\
    count is_CallF d = (count is_Iter d + 1)%nat /\
    (count is_Iter d = 0%nat \/ (Z.of_nat (count is_Iter d) <= 20)%Z).
Proof.
  destruct (newton_raphson_cost sq2 dsq2 (1 # 100) 20 1 [])
    as (o & d & Hn & Hf & _ & _ & Hret).
  exists o, d; split; [exact Hn | split; [exact Hf |]].
  apply (Hret (21270528 # 15040512)).
  assert (Hv : newton_raphson sq2 dsq2 (1 # 100) 20 1 [] =
               (Return (21270528 # 15040512),
                [CallF 1; CallDf 1; Iter; CallF (3 # 2); CallDf (3 # 2); Iter;
                 CallF (68 # 48); CallDf (68 # 48)]))
    by (vm_compute; reflexivity).
  rewrite Hv in Hn; injection Hn as <- _; reflexivity.
Defined.

(** *** Starting at a root *)

(** Started at an exact root with a non-zero derivative, and with a
    tolerance that is not negative, [newton_raphson] returns at once a
    value equal to [x_0], after one evaluation of [f] and one of [df]. *)
Theorem newton_raphson_at_root f df eps max_its x_0 t :
  f x_0 == 0 -> ~ df x_0 == 0 -> 0 <= eps ->
  exists r,
    newton_raphson f df eps max_its x_0 t = (Return r, t ++ [CallF x_0; CallDf x_0]) /\
    r == x_0.
Proof.
  intros Hf Hd Heps.
  assert (Hr : x_0 - f x_0 / df x_0 == x_0).
  { rewrite Hf; unfold Qdiv; ring. }
  exists (x_0 - f x_0 / df x_0); split; [| exact Hr].
  unfold newton_raphson, newton_raphson_fuel, its_fuel, bind.
  rewrite newton_update_eq.
  apply Qeq_bool_false in Hd; rewrite Hd.
  rewrite while_unfold; unfold nr_cond at 1, ret; simpl nr_x; simpl nr_new_x.
  assert (Hg : Qgtb (Qabs (x_0 - (x_0 - f x_0 / df x_0))) eps = false).
  { apply Qgtb_false.
    assert (Hz : x_0 - (x_0 - f x_0 / df x_0) == 0) by (rewrite Hr; ring).
    rewrite Hz; exact Heps. }
  rewrite Hg; reflexivity.
Qed.

(** [x - 1] from its root [1]. *)
Lemma newton_raphson_at_root_witness :
  exists r,
    newton_raphson shift1 one (1 # 100) 20 1 [] = (Return r, [] ++ [CallF 1; CallDf 1]) /\
    r == 1.
Proof.
  apply (newton_raphson_at_root shift1 one (1 # 100) 20 1 []);
    vm_compute; discriminate || reflexivity.
Defined.

(** *** What [solve] hands back *)

(** The loop test is false at what [bisection] returns. *)
Lemma bis_return_test_fails f eps max_its x_0 x_1 t x t' :
  bisection f eps max_its x_0 x_1 t = (Return x, t') ->
  Qgtb (Qabs (f x)) eps = false.
Proof.
  unfold bisection, bisection_fuel; intros H.
  apply bind_inv_Return in H; destruct H as (st & t1 & Hw & Hr).
  injection Hr as <- <-.
  apply while_Return_runs in Hw; destruct Hw as (n & t0 & _ & Hc & _).
  rewrite bis_cond_eq in Hc; injection Hc as Hb _; exact Hb.
Qed.

(** How [solve] comes to its outcome, read backwards. *)
Lemma solve_inv f df x_0 x_1 eps max_its_n max_its_b t o t' :
  solve f df x_0 x_1 eps max_its_n max_its_b t = (o, t') ->
  (exists r, newton_raphson f df eps max_its_n x_0 t = (Return r, t') /\
             o = Return None) \/
  (exists e, e <> ConvergenceError /\
             newton_raphson f df eps max_its_n x_0 t = (Raise e, t') /\
             o = Raise e) \/
  (newton_raphson f df eps max_its_n x_0 t = (OutOfFuel, t') /\ o = OutOfFuel) \/
  (exists t1, newton_raphson f df eps max_its_n x_0 t = (Raise ConvergenceError, t1) /\
              outcome_map Some (bisection f eps max_its_b x_0 x_1 t1) = (o, t')).
Proof.
  unfold solve, try_except_ConvergenceError, bind at 1.
  destruct (newton_raphson f df eps max_its_n x_0 t) as [[r | e |] t1] eqn:Hn.
  - unfold ret; intros [= <- <-]; left; exists r; split; reflexivity.
  - destruct e.
    + intros H; right; right; right; exists t1; split; [reflexivity |].
      unfold bind, ret in H; unfold outcome_map.
      destruct (bisection f eps max_its_b x_0 x_1 t1) as [[x | e |] t2]; exact H.
    + intros [= <- <-]; right; left; exists ValueError.
      split; [discriminate | split; reflexivity].
    + intros [= <- <-]; right; left; exists ZeroDivisionError.
      split; [discriminate | split; reflexivity].
  - intros [= <- <-]; right; right; left; split; reflexivity.
Qed.

(** A value other than [None] returned by [solve] comes from the fall-back
    to [bisection] after [newton_raphson] raised [ConvergenceError], and it
    satisfies [abs(f(x)) <= eps]; [None] is returned exactly when
    [newton_raphson] returned. *)
Theorem solve_returned_value f df x_0 x_1 eps max_its_n max_its_b t v t' :
  solve f df x_0 x_1 eps max_its_n max_its_b t = (Return v, t') ->
  match v with
  | Some x =>
      exists t1,
        newton_raphson f df eps max_its_n x_0 t = (Raise ConvergenceError, t1) /\
        bisection f eps max_its_b x_0 x_1 t1 = (Return x, t') /\
        Qabs (f x) <= eps
  | None => exists r, newton_raphson f df eps max_its_n x_0 t = (Return r, t')
  end.
Proof.
  intros H; apply solve_inv in H.
  destruct H as [(r & Hn & Ho) | [(e & _ & _ & Ho) | [(_ & Ho) | (t1 & Hn & Hb)]]];
    try discriminate Ho.
  - injection Ho as ->; exists r; exact Hn.
  - unfold outcome_map in Hb.
    destruct (bisection f eps max_its_b x_0 x_1 t1) as [[x | e |] t2] eqn:Hbis;
      try discriminate Hb.
    injection Hb as <- <-.
    exists t1; split; [exact Hn | split; [exact Hbis |]].
    apply Qgtb_false, (bis_return_test_fails _ _ _ _ _ _ _ _ Hbis).
Qed.

(** [solve] on [x**2 - 2] with [x_0 = 1], [x_1 = 2]: with [max_its_n = 0]
    the value comes from bisection. *)
Lemma solve_returned_value_witness :
  exists t1,
    newton_raphson sq2 dsq2 (1 # 10) 0 1 [] = (Raise ConvergenceError, t1) /\
    bisection sq2 (1 # 10) 20 1 2 t1 =
      (Return (92 # 64), snd (solve sq2 dsq2 1 2 (1 # 10) 0 20 [])) /\
    Qabs (sq2 (92 # 64)) <= 1 # 10.
Proof.
  apply (solve_returned_value sq2 dsq2 1 2 (1 # 10) 0 20 [] (Some (92 # 64))).
  vm_compute; reflexivity.
Defined.

(** [solve] raises [ConvergenceError] only when both solvers did: first
    [newton_raphson], then [bisection]. *)
Theorem solve_ConvergenceError_needs_both f df x_0 x_1 eps max_its_n max_its_b t t' :
  solve f df x_0 x_1 eps max_its_n max_its_b t = (Raise ConvergenceError, t') ->
  exists t1,
    newton_raphson f df eps max_its_n x_0 t = (Raise ConvergenceError, t1) /\
    bisection f eps max_its_b x_0 x_1 t1 = (Raise ConvergenceError, t').
Proof.
  intros H; apply solve_inv in H.
  destruct H as [(r & _ & Ho) | [(e & He & _ & Ho) | [(_ & Ho) | (t1 & Hn & Hb)]]];
    try discriminate Ho.
  - injection Ho as <-; congruence.
  - exists t1; split; [exact Hn |].
    unfold outcome_map in Hb.
    destruct (bisection f eps max_its_b x_0 x_1 t1) as [[x | e |] t2] eqn:Hbis;
      try discriminate Hb.
    injection Hb as <- <-; reflexivity.
Qed.

(** [x**2 - 2] with both caps at [0] and a small tolerance. *)
Lemma solve_ConvergenceError_needs_both_witness :
  exists t1,
    newton_raphson sq2 dsq2 (1 # 100) 0 1 [] = (Raise ConvergenceError, t1) /\
    bisection sq2 (1 # 100) 0 1 2 t1 =
      (Raise ConvergenceError, snd (solve sq2 dsq2 1 2 (1 # 100) 0 0 [])).
Proof.
  apply (solve_ConvergenceError_needs_both sq2 dsq2 1 2 (1 # 100) 0 0 []).
  vm_compute; reflexivity.
Defined.

(** *** The first iteration and the cap *)

(** The first iteration of [bisection] on a bracket that passes the sign
    test, when the tolerance is not met at [x_0]: with a cap
    [max_its >= 0] and the tolerance met at the midpoint, the midpoint is
    returned after six evaluations of [f]; with a negative cap the
    iteration raises [ConvergenceError] whatever the midpoint is. *)
Theorem bisection_first_iteration f eps max_its x_0 x_1 t :
  eps < Qabs (f x_0) ->
  f x_0 * f x_1 <= 0 ->
  let m := (x_1 + x_0) / 2 in
  ((0 <= max_its)%Z -> Qabs (f m) <= eps ->
   bisection f eps max_its x_0 x_1 t =
   (Return m, t ++ [CallF x_0; Iter; CallF x_0; CallF x_1; CallF m; CallF x_0; CallF m]))
  /\
  ((max_its < 0)%Z ->
   bisection f eps max_its x_0 x_1 t =
   (Raise ConvergenceError,
    t ++ [CallF x_0; Iter; CallF x_0; CallF x_1; CallF m; CallF x_0])).
Proof.
  intros Hc Hs m.
  apply Qgtb_true in Hc; apply Qgtb_false in Hs.
  split.
  - intros Hcap Hm; apply Qgtb_false in Hm.
    unfold bisection, bisection_fuel, its_fuel, bind.
    rewrite while_unfold, bis_cond_eq; simpl bis_new_x; rewrite Hc.
    rewrite bis_body_eq; cbv zeta; simpl bis_x_l; simpl bis_x_r; rewrite Hs.
    simpl bis_current_its.
    assert (Hi : (0 >? max_its)%Z = false) by (rewrite Z.gtb_ltb, Z.ltb_ge; exact Hcap).
    rewrite Hi.
    rewrite while_unfold, bis_cond_eq; simpl bis_new_x; fold m; rewrite Hm.
    rewrite <- !app_assoc; reflexivity.
  - intros Hcap.
    unfold bisection, bisection_fuel, its_fuel, bind.
    rewrite while_unfold, bis_cond_eq; simpl bis_new_x; rewrite Hc.
    rewrite bis_body_eq; cbv zeta; simpl bis_x_l; simpl bis_x_r; rewrite Hs.
    simpl bis_current_its.
    assert (Hi : (0 >? max_its)%Z = true) by (apply Z.gtb_lt; exact Hcap).
    rewrite Hi, <- !app_assoc; reflexivity.
Qed.

(** [f(x) = x] on [[-1, 1]]: the midpoint is the root. *)
Lemma bisection_first_iteration_witness :
  bisection ident (1 # 10) 0 (-1) 1 [] =
    (Return ((1 + -1) / 2),
     [] ++ [CallF (-1); Iter; CallF (-1); CallF 1; CallF ((1 + -1) / 2);
            CallF (-1); CallF ((1 + -1) / 2)])
  /\ bisection ident (1 # 10) (-1) (-1) 1 [] =
     (Raise ConvergenceError,
      [] ++ [CallF (-1); Iter; CallF (-1); CallF 1; CallF ((1 + -1) / 2); CallF (-1)]).
Proof.
  split.
  - apply (proj1 (bisection_first_iteration ident (1 # 10) 0 (-1) 1 []
                    ltac:(vm_compute; reflexivity) ltac:(vm_compute; discriminate)));
      [lia | vm_compute; discriminate].
  - apply (proj2 (bisection_first_iteration ident (1 # 10) (-1) (-1) 1 []
                    ltac:(vm_compute; reflexivity) ltac:(vm_compute; discriminate)));
      lia.
Defined.

(** [solve] ends on every input, with a value or with an exception, and
    enters loop bodies at most [max(max_its_n, 0) + max(max_its_b, 0) + 3]
    times in all. *)
Theorem solve_terminates f df x_0 x_1 eps max_its_n max_its_b t :
  exists o d,
    solve f df x_0 x_1 eps max_its_n max_its_b t = (o, t ++ d) /\
    ((exists v, o = Return v) \/ (exists e, o = Raise e)) /\
    (count is_Iter d <= Z.to_nat max_its_n + Z.to_nat max_its_b + 3)%nat.
Proof.
  destruct (newton_raphson_total f df eps max_its_n x_0 t) as (o1 & d1 & Hn & Ho1 & Hc1 & _).
  unfold solve, try_except_ConvergenceError, bind at 1; rewrite Hn.
  destruct o1 as [r | e |]; [| | congruence].
  - exists (Return None), d1; split; [reflexivity |].
    split; [left; eauto | lia].
  - destruct e.
    + destruct (bisection_total f eps max_its_b x_0 x_1 (t ++ d1))
        as (o2 & d2 & Hb & Ho2 & Hc2 & _).
      unfold bind; rewrite Hb, <- app_assoc.
      destruct o2 as [x | e |]; [| | congruence].
      * exists (Return (Some x)), (d1 ++ d2); split; [reflexivity |].
        split; [left; eauto | rewrite count_app; lia].
      * exists (Raise e), (d1 ++ d2); split; [reflexivity |].
        split; [right; eauto | rewrite count_app; lia].
    + exists (Raise ValueError), d1; split; [reflexivity |].
      split; [right; eauto | lia].
    + exists (Raise ZeroDivisionError), d1; split; [reflexivity |].
      split; [right; eauto | lia].
Qed.

(** *** The value returned by bisection brackets a sign change *)



(** ** Newton-Raphson on binary64 floats *)

Section Float64Facts.
Import PrimFloat FloatOps FloatAxioms SpecFloat.
#[local] Set Warnings "-inexact-float".
Local Open Scope float_scope.

(** Comparison of two floats, read the other way round. *)
Lemma f64_SFcompare_antisym (a b : spec_float) :
  SFcompare b a = option_map CompOpp (SFcompare a b).
Proof.
  destruct a as [sa | sa | | sa ma ea], b as [sb | sb | | sb mb eb]; simpl;
    try reflexivity; try (destruct sa; reflexivity); try (destruct sb; reflexivity);
    try (destruct sa, sb; reflexivity).
  destruct sa, sb; try reflexivity; f_equal.
  - rewrite (Z.compare_antisym ea eb).
    destruct (ea ?= eb)%Z; simpl; try reflexivity.
    f_equal; exact (Pos.compare_antisym ma mb).
  - rewrite (Z.compare_antisym ea eb).
    destruct (ea ?= eb)%Z; simpl; try reflexivity.
    exact (Pos.compare_antisym ma mb).
Qed.

(** On floats, [a > b] false gives [a <= b] when neither is a NaN. *)
Lemma f64_not_gt_le (a b : float) :
  ltb b a = false -> is_nan a = false -> is_nan b = false -> leb a b = true.
Proof.
  unfold is_nan.
  rewrite ltb_spec, leb_spec, !eqb_spec.
  unfold SFltb, SFleb, SFeqb.
  rewrite (f64_SFcompare_antisym (Prim2SF b) (Prim2SF a)).
  intros H Ha Hb.
  destruct (Prim2SF a) as [sa | sa | | sa ma ea], (Prim2SF b) as [sb | sb | | sb mb eb];
    try discriminate Ha; try discriminate Hb.
  all: match goal with
       | |- context [SFcompare ?u ?v] =>
           destruct (SFcompare u v) as [[ | | ] | ] eqn:Hc
       end; simpl in *; try reflexivity; try discriminate.
Qed.

(** A float loop that returns ends in a state where the test is false and
    that keeps every invariant of the completed iterations. *)
Lemma f64_while_Return_inv {S : Type} (cond : S -> bool) (body : S -> outcome S)
    (P : S -> Prop) :
  (forall s s', P s -> cond s = true -> body s = Return s' -> P s') ->
  forall k s s', P s -> Float64.while cond body k s = Return s' ->
  P s' /\ cond s' = false.
Proof.
  intros Hstep; induction k as [| k IH]; intros s s' Hs H; [discriminate H |].
  simpl in H.
  destruct (cond s) eqn:Hc.
  - destruct (body s) as [s1 | e |] eqn:Hb; simpl in H; try discriminate H.
    exact (IH _ _ (Hstep _ _ Hs Hc Hb) H).
  - injection H as <-; split; assumption.
Qed.

(** The float loop never exhausts its fuel. *)
Lemma f64_while_terminates f df eps max_its k :
  forall st, (Float64.nr_mu max_its st < k)%nat ->
  Float64.while (Float64.nr_cond eps) (Float64.nr_body f df max_its) k st <> OutOfFuel.
Proof.
  induction k as [| k IH]; intros st Hk; [lia |].
  simpl.
  destruct (Float64.nr_cond eps st); [| discriminate].
  unfold Float64.nr_body, Float64.newton_update, Float64.py_div.
  destruct (eqb (df (Float64.nr_new_x st)) 0); [discriminate |].
  simpl.
  destruct (Float64.nr_current_its st >? max_its)%Z eqn:Hi; [discriminate |].
  simpl; apply IH.
  rewrite Z.gtb_ltb, Z.ltb_ge in Hi.
  unfold Float64.nr_mu in *; simpl; lia.
Qed.

Lemma f64_newton_raphson_total f df eps max_its x_0 :
  Float64.newton_raphson f df eps max_its x_0 <> OutOfFuel.
Proof.
  unfold Float64.newton_raphson, Float64.nr_loop, Float64.newton_update, Float64.py_div.
  destruct (eqb (df x_0) 0); [discriminate |].
  cbn [Float64.bind].
  match goal with
  | |- context [Float64.while ?c ?b ?k ?s0] =>
      destruct (Float64.while c b k s0) as [s | e |] eqn:Hw
  end; try discriminate.
  exfalso; revert Hw; apply f64_while_terminates.
  unfold Float64.nr_mu, its_fuel; simpl; lia.
Qed.

(** When the float [newton_raphson] returns, the loop has ended in a state
    whose [new_x] is returned, is the Newton update of its [x], and fails
    the step test. *)
Lemma f64_newton_raphson_return f df eps max_its x_0 r :
  Float64.newton_raphson f df eps max_its x_0 = Return r ->
  exists st,
    Float64.nr_loop f df eps max_its (its_fuel max_its) x_0 = Return st /\
    r = Float64.nr_new_x st /\
    eqb (df (Float64.nr_x st)) 0 = false /\
    Float64.nr_new_x st =
      Float64.nr_x st - f (Float64.nr_x st) / df (Float64.nr_x st) /\
    ltb eps (abs (Float64.nr_x st - Float64.nr_new_x st)) = false.
Proof.
  unfold Float64.newton_raphson.
  destruct (Float64.nr_loop f df eps max_its (its_fuel max_its) x_0)
    as [st | e |] eqn:Hl; simpl; try discriminate.
  intros [= <-]; exists st; split; [reflexivity | split; [reflexivity |]].
  unfold Float64.nr_loop, Float64.newton_update, Float64.py_div in Hl.
  destruct (eqb (df x_0) 0) eqn:Hd; [discriminate Hl |].
  cbn [Float64.bind] in Hl.
  apply (f64_while_Return_inv _ _
           (fun s => eqb (df (Float64.nr_x s)) 0 = false /\
                     Float64.nr_new_x s =
                       Float64.nr_x s - f (Float64.nr_x s) / df (Float64.nr_x s)))
    in Hl.
  - destruct Hl as [[H1 H2] H3]; repeat split; assumption.
  - intros s s' _ _ Hb.
    unfold Float64.nr_body, Float64.newton_update, Float64.py_div in Hb.
    destruct (eqb (df (Float64.nr_new_x s)) 0) eqn:Hd'; [discriminate Hb |].
    simpl in Hb.
    destruct (Float64.nr_current_its s >? max_its)%Z; [discriminate Hb |].
    injection Hb as <-; simpl; split; [exact Hd' | reflexivity].
  - simpl; split; [exact Hd | reflexivity].
Qed.

End Float64Facts.

Section Float64Claim.
Import PrimFloat.
#[local] Set Warnings "-inexact-float".

(** C3 (as amended): when [newton_raphson] returns, the value [r] it
    returns is the last computed [new_x], the Newton update of the previous
    iterate [x_prev], and the step test [abs(x_prev - new_x) > eps] is
    false for it.  On binary64 floats this gives
    [abs(x_prev - new_x) <= eps] unless the step or [eps] is a NaN, for
    which the test is false too.  In exact arithmetic it always gives
    [abs(x_prev - new_x) <= eps]. *)
Theorem newton_raphson_return_fails_step_test :
  (forall (f df : float -> float) (eps : float) (max_its : Z) (x_0 r : float),
      Float64.newton_raphson f df eps max_its x_0 = Return r ->
      exists x_prev,
        eqb (df x_prev) 0%float = false /\
        r = (x_prev - f x_prev / df x_prev)%float /\
        ltb eps (abs (x_prev - r)%float) = false /\
        (is_nan (abs (x_prev - r)%float) = false -> is_nan eps = false ->
         leb (abs (x_prev - r)%float) eps = true))
  /\
  (forall (f df : Q -> Q) (eps : Q) (max_its : Z) (x_0 : Q) t r t',
      newton_raphson f df eps max_its x_0 t = (Return r, t') ->
      exists x_prev pre,
        t' = pre ++ [CallF x_prev; CallDf x_prev] /\
        ~ df x_prev == 0 /\
        r = x_prev - f x_prev / df x_prev /\
        Qabs (x_prev - r) <= eps).
Proof.
  split.
  - intros f df eps max_its x_0 r H.
    apply f64_newton_raphson_return in H.
    destruct H as (st & _ & -> & Hd & Hnew & Htest).
    exists (Float64.nr_x st).
    split; [exact Hd | split; [exact Hnew | split; [exact Htest |]]].
    intros Hn He; exact (f64_not_gt_le _ _ Htest Hn He).
  - intros f df eps max_its x_0 t r t' H.
    exact (newton_raphson_result_is_last_step _ _ _ _ _ _ _ _ H).
Qed.

(** Newton-Raphson on [x**2 - 2] from [1], on floats with [eps = 1e-5] and
    on rationals with [eps = 1/100]. *)
Lemma newton_raphson_return_fails_step_test_witness :
  (exists x_prev,
      eqb (Float64.dsq2 x_prev) 0%float = false /\
      1.4142135623746899%float =
        (x_prev - Float64.sq2 x_prev / Float64.dsq2 x_prev)%float /\
      ltb 1e-5%float (abs (x_prev - 1.4142135623746899)%float) = false /\
      (is_nan (abs (x_prev - 1.4142135623746899)%float) = false ->
       is_nan 1e-5%float = false ->
       leb (abs (x_prev - 1.4142135623746899)%float) 1e-5%float = true))
  /\
  (exists x_prev pre,
      [CallF 1; CallDf 1; Iter; CallF (3 # 2); CallDf (3 # 2); Iter;
       CallF (68 # 48); CallDf (68 # 48)] = pre ++ [CallF x_prev; CallDf x_prev] /\
      ~ dsq2 x_prev == 0 /\
      21270528 # 15040512 = x_prev - sq2 x_prev / dsq2 x_prev /\
      Qabs (x_prev - (21270528 # 15040512)) <= 1 # 100).
Proof.
  split.
  - apply (proj1 newton_raphson_return_fails_step_test
             Float64.sq2 Float64.dsq2 1e-5%float 20%Z 1%float).
    vm_compute; reflexivity.
  - apply (proj2 newton_raphson_return_fails_step_test
             sq2 dsq2 (1 # 100) 20%Z 1 []).
    vm_compute; reflexivity.
Defined.

(** C3, counterexample: on floats, for [f(x) = x**2 - 2], [df(x) = 2*x],
    [x_0 = 1e200], [eps = 1e-5] and [max_its = 1], [f(x_0)] overflows to
    [inf], the first update is [-inf], the second is [inf / -inf], a NaN;
    the test [abs(-inf - nan) > eps] is false, so the loop ends and the
    call returns the NaN, with previous iterate [-inf]:
    [abs(x_prev - new_x) <= eps] does not hold. *)
Lemma newton_raphson_float_returns_nan :
  Float64.newton_raphson Float64.sq2 Float64.dsq2 1e-5%float 1 1e200%float =
    Return nan /\
  Float64.nr_loop Float64.sq2 Float64.dsq2 1e-5%float 1 (its_fuel 1) 1e200%float =
    Return (Float64.mk_nr neg_infinity nan 2) /\
  nan = (neg_infinity - Float64.sq2 neg_infinity / Float64.dsq2 neg_infinity)%float /\
  ltb 1e-5%float (abs (neg_infinity - nan)%float) = false /\
  leb (abs (neg_infinity - nan)%float) 1e-5%float = false.
Proof.
  repeat split; vm_compute; reflexivity.
Qed.

End Float64Claim.
